(** * Scavenger hunt generator: the sequence-generation core

    A shallow embedding of [generateHuntSequences] and its helpers
    ([createAlternatingSequence], [followsAlternatingTypes],
    [violatesConstraints], [recordConstraints], [shuffleArray]) from
    [scavenger_hunt_script.js], followed by the properties of the design
    document that concern them.

    Modelling choices.
    - JavaScript arrays of clues are objects on a heap; an array that is
      mutated in place ([shuffleArray], [push], [splice], the destructuring
      swap) lives in the [heap] of the [World] and is named by its location.
      [slice], [filter] and the spread copy allocate fresh arrays.
    - Clue records are never written by the script (no assignment to a
      property of a clue occurs anywhere), so they are immutable values.
    - [Math.random] is a tape of raw draws; [Math.floor(Math.random() * k)]
      consumes one draw [x] and yields [x mod k], so that every integer of
      [0, k) is a possible outcome and successive draws are unrelated.
    - [throw] is the left summand of the result; the world persists.
    - The two ledger [Set]s hold strings and are [gset string]; the
      [allSequences] object is a [gmap nat (list Step)]. *)

From Stdlib Require Import Ascii.
From stdpp Require Import gmap strings list fin_maps pretty.

(** ** Data model *)

(** A clue as [readCluesFromSheet] builds it: [clueType] is [null] or a
    trimmed string (possibly empty). *)
Record Clue := mkClue {
  question : string;
  answer : string;
  clueType : option string
}.

(** One entry of a group's sequence, as pushed on [candidateSequence];
    [stepQuestion] is its [question] property. *)
Record Step := mkStep {
  clueNumber : nat;
  stepQuestion : string;
  location : string;
  nextClue : string
}.

#[global] Instance Clue_eq_dec : EqDecision Clue.
Proof. solve_decision. Defined.

#[global] Instance Step_eq_dec : EqDecision Step.
Proof. solve_decision. Defined.

(** What a [throw] carries: an [Error] with its message, or the [TypeError]
    the engine raises when a property of [undefined] is read. *)
Inductive Exn :=
| Error (message : string)
| TypeError.

(** Observation points of a run, kept in the world for the claims that speak
    about what happened during a run: the increment [attempts++] of a group's
    retry loop and the call of [recordConstraints]. *)
Inductive Event :=
| EvAttempt (groupNum attempts : nat)
| EvRecord (groupNum : nat).

#[global] Instance Event_eq_dec : EqDecision Event.
Proof. solve_decision. Defined.

(** Locations of arrays on the heap. *)
Abbreviation loc := nat (only parsing).

Record World := mkWorld {
  heap : list (list Clue);
  tape : list nat;
  log : list Event
}.

(** The ledger of one run. *)
Record Ledger := mkLedger {
  usedFirstClues : gset string;
  usedConsecutivePairs : gset string
}.

(** ** Strings *)

(** [toLowerCase] on the bytes of a string: ASCII capitals are lowered, every
    other byte is kept. The script only compares lowered categories with
    'person' and 'place'; no character outside ASCII lowers to one of the
    letters of these two words, so the comparison agrees with the engine's. *)
Definition lowerAscii (c : ascii) : ascii :=
  let n := nat_of_ascii c in
  if (65 <=? n) && (n <=? 90) then ascii_of_nat (n + 32) else c.

Fixpoint toLowerCase (s : string) : string :=
  match s with
  | EmptyString => EmptyString
  | String c s' => String (lowerAscii c) (toLowerCase s')
  end.

(** [String.prototype.includes]. *)
Fixpoint includes (s t : string) : bool :=
  String.prefix t s ||
  match s with
  | EmptyString => false
  | String _ s' => includes s' t
  end.

(** [c.clueType && c.clueType.toLowerCase() === tag] *)
Definition hasType (tag : string) (c : Clue) : bool :=
  match clueType c with
  | Some s => negb (String.eqb s "") && String.eqb (toLowerCase s) tag
  | None => false
  end.

Definition isPerson : Clue → bool := hasType "person".
Definition isPlace : Clue → bool := hasType "place".

(** [c.clueType && ['person', 'place'].includes(c.clueType.toLowerCase())] *)
Definition isTyped (c : Clue) : bool :=
  match clueType c with
  | Some s =>
      negb (String.eqb s "") &&
      (String.eqb (toLowerCase s) "person" || String.eqb (toLowerCase s) "place")
  | None => false
  end.

(** ** The monad of the script: state and exceptions *)

Definition M (A : Type) : Type := World → (Exn + A) * World.

Definition ret {A} (a : A) : M A := λ w, (inr a, w).

Definition throw {A} (e : Exn) : M A := λ w, (inl e, w).

Definition bind {A B} (m : M A) (k : A → M B) : M B :=
  λ w, match m w with
       | (inr a, w') => k a w'
       | (inl e, w') => (inl e, w')
       end.

Declare Scope script_scope.
Delimit Scope script_scope with script.
Notation "'let*' x ':=' m 'in' k" := (bind m (λ x, k))
  (at level 10, x pattern, m at level 99, k at level 200) : script_scope.
Notation "m ';;;' k" := (bind m (λ _, k))
  (at level 100, k at level 200, right associativity) : script_scope.
Local Open Scope script_scope.

(** *** Primitive effects *)

(** Contents of the array at [a]; a location that was never allocated reads
    as the empty array. *)
Definition arrayAt (w : World) (a : loc) : list Clue :=
  default [] (heap w !! a).

Definition readArray (a : loc) : M (list Clue) :=
  λ w, (inr (arrayAt w a), w).

(** Allocation of a fresh array holding [l]. *)
Definition newArray (l : list Clue) : M loc :=
  λ w, (inr (length (heap w)),
        mkWorld (heap w ++ [l]) (tape w) (log w)).

(** In-place update of the array at [a]. *)
Definition modifyArray (a : loc) (f : list Clue → list Clue) : M unit :=
  λ w, (inr tt, mkWorld (alter f a (heap w)) (tape w) (log w)).

(** [Math.floor(Math.random() * k)]: one draw, reduced to [0, k); a tape
    that ran out keeps answering 0. *)
Definition floorRandomTimes (k : nat) : M nat :=
  λ w, match tape w with
       | [] => (inr 0, w)
       | x :: t => (inr (if k =? 0 then 0 else x mod k),
                    mkWorld (heap w) t (log w))
       end.

(** Append an observation to the log. *)
Definition emit (e : Event) : M unit :=
  λ w, (inr tt, mkWorld (heap w) (tape w) (log w ++ [e])).

(** ** The shuffle primitive *)

(** [[array[i], array[j]] = [array[j], array[i]]]: both cells are read, then
    [array[i]] and [array[j]] are written in this order. Every call of the
    script has [i] and [j] inside the array; outside it the model leaves the
    array alone. *)
Definition swap (i j : nat) (array : list Clue) : list Clue :=
  match array !! i, array !! j with
  | Some x, Some y => <[j := x]> (<[i := y]> array)
  | _, _ => array
  end.

(** The loop [for (let i = ...; i > 0; i--)] of [shuffleArray], entered at
    [i]. *)
Fixpoint shuffleFrom (array : loc) (i : nat) : M unit :=
  match i with
  | 0 => ret tt
  | S i' =>
      let* j := floorRandomTimes (i + 1) in
      modifyArray array (swap i j) ;;;
      shuffleFrom array i'
  end.

Definition shuffleArray (array : loc) : M unit :=
  let* l := readArray array in
  shuffleFrom array (length l - 1).

(** ** The alternating-sequence builder *)

(** The value of the local [currentType]. *)
Inductive Tag := person | place.

(** [!c.clueType || !['person', 'place'].includes(c.clueType.toLowerCase())] *)
Definition isOther (c : Clue) : bool :=
  match clueType c with
  | Some s =>
      String.eqb s "" ||
      negb (String.eqb (toLowerCase s) "person" || String.eqb (toLowerCase s) "place")
  | None => true
  end.

(** The interleaving loop, with [n] iterations left. A guard
    [idx < array.length] followed by the read [array[idx]] is the lookup
    [array !! idx]: it answers [Some] exactly when the guard holds. The four
    branches are tried in the order of the script; when none applies the
    iteration pushes nothing. *)
Fixpoint interleave (personClues placeClues : list Clue) (n : nat)
    (currentType : Tag) (personIdx placeIdx : nat) (result : list Clue)
    : list Clue :=
  match n with
  | 0 => result
  | S n' =>
      match currentType, placeClues !! placeIdx, personClues !! personIdx with
      | place, Some c, _ =>
          interleave personClues placeClues n' person personIdx (S placeIdx)
            (result ++ [c])
      | person, _, Some c =>
          interleave personClues placeClues n' place (S personIdx) placeIdx
            (result ++ [c])
      | _, Some c, _ =>
          interleave personClues placeClues n' person personIdx (S placeIdx)
            (result ++ [c])
      | _, None, Some c =>
          interleave personClues placeClues n' place (S personIdx) placeIdx
            (result ++ [c])
      | _, None, None =>
          interleave personClues placeClues n' currentType personIdx placeIdx
            result
      end
  end.

(** The search [for (let i = 0; i < result.length - 2; i++)] for a Place
    entry, entered at [i] with [n] iterations left: the index of the first
    match, at which the script swaps and breaks. *)
Fixpoint searchPlace (result : list Clue) (n i : nat) : option nat :=
  match n with
  | 0 => None
  | S n' =>
      match result !! i with
      | Some c => if isPlace c then Some i else searchPlace result n' (S i)
      | None => searchPlace result n' (S i)
      end
  end.

(** The post-pass that prefers a Place in the second-to-last position. *)
Definition preferPlaceSecondToLast (result : list Clue) : list Clue :=
  if 2 <=? length result then
    let secondToLastIdx := length result - 2 in
    match result !! secondToLastIdx with
    | Some c =>
        if isPerson c then
          match searchPlace result (length result - 2) 0 with
          | Some i => swap i secondToLastIdx result
          | None => result
          end
        else result
    | None => result
    end
  else result.

(** [result.splice(pos, 0, clue)]: a start beyond the end is clamped to the
    length. *)
Definition splice (pos : nat) (clue : Clue) (result : list Clue) : list Clue :=
  take pos result ++ clue :: drop pos result.

(** [for (const clue of otherClues)], over the entries still to visit. *)
Fixpoint insertOthers (result : loc) (others : list Clue) : M unit :=
  match others with
  | [] => ret tt
  | clue :: rest =>
      let* r := readArray result in
      let* x := floorRandomTimes (length r) in
      let pos := x + 1 in
      modifyArray result (splice pos clue) ;;;
      insertOthers result rest
  end.

(** [createAlternatingSequence(clues)]; [None] is the script's [null]. *)
Definition createAlternatingSequence (clues : loc) : M (option loc) :=
  let* cl := readArray clues in
  let* personClues := newArray (filter (λ c, isPerson c) cl) in
  let* placeClues := newArray (filter (λ c, isPlace c) cl) in
  let* otherClues := newArray (filter (λ c, isOther c) cl) in
  let* places := readArray placeClues in
  let* persons := readArray personClues in
  if length places =? 0 then ret None
  else if length persons + length places <? 2 then ret None
  else
    shuffleArray personClues ;;;
    shuffleArray placeClues ;;;
    shuffleArray otherClues ;;;
    let* result := newArray [] in
    let* persons := readArray personClues in
    let* places := readArray placeClues in
    let totalTyped := length persons + length places in
    modifyArray result (interleave persons places totalTyped place 0 0) ;;;
    modifyArray result preferPlaceSecondToLast ;;;
    let* others := readArray otherClues in
    insertOthers result others ;;;
    ret (Some result).

(** ** The constraint validator and the ledger *)

(** The key [`${a.question}|${b.question}`] of an adjacent pair. *)
Definition pairKey (a b : Clue) : string :=
  question a +:+ "|" +:+ question b.

(** The keys of the pairs [(shuffledClues[i], shuffledClues[i + 1])] for
    [i] from [0] to [shuffledClues.length - 2], in this order. *)
Fixpoint pairKeys (shuffledClues : list Clue) : list string :=
  match shuffledClues with
  | a :: (b :: _) as rest => pairKey a b :: pairKeys rest
  | _ => []
  end.

(** The test inside the loop of [followsAlternatingTypes]: both entries carry
    one of the two categories, and the same one. *)
Definition sameTypeTwice (a b : Clue) : bool :=
  match clueType a, clueType b with
  | Some s, Some t =>
      negb (String.eqb s "") && negb (String.eqb t "") &&
      (String.eqb (toLowerCase s) "person" || String.eqb (toLowerCase s) "place") &&
      (String.eqb (toLowerCase t) "person" || String.eqb (toLowerCase t) "place") &&
      String.eqb (toLowerCase s) (toLowerCase t)
  | _, _ => false
  end.

Fixpoint violations (shuffledClues : list Clue) : nat :=
  match shuffledClues with
  | a :: (b :: _) as rest =>
      (if sameTypeTwice a b then 1 else 0) + violations rest
  | _ => 0
  end.

Definition followsAlternatingTypes (shuffledClues : list Clue) : bool :=
  let typedClues := filter (λ c, isTyped c) shuffledClues in
  if length typedClues <? 2 then true
  else violations shuffledClues <=? length shuffledClues / 2.

(** Rule 1b alone: [shuffledClues[0].clueType &&
    shuffledClues[0].clueType.toLowerCase() !== 'place']. *)
Definition firstNotPlace (first : Clue) : bool :=
  match clueType first with
  | Some s => negb (String.eqb s "") && negb (String.eqb (toLowerCase s) "place")
  | None => false
  end.

(** [violatesConstraints]; reading [shuffledClues[0].question] of an empty
    array raises a [TypeError], here [None]. *)
Definition violatesConstraints (shuffledClues : list Clue)
    (usedFirstClues usedConsecutivePairs : gset string) : option bool :=
  match shuffledClues with
  | [] => None
  | first :: _ =>
      Some
        (if bool_decide (question first ∈ usedFirstClues) then true
         else if firstNotPlace first then true
         else if existsb (λ pair, bool_decide (pair ∈ usedConsecutivePairs))
                   (pairKeys shuffledClues) then true
         else if negb (followsAlternatingTypes shuffledClues) then true
         else false)
  end.

(** [recordConstraints]: the two sets after the call. *)
Definition recordConstraints (shuffledClues : list Clue) (ledger : Ledger)
    : option Ledger :=
  match shuffledClues with
  | [] => None
  | first :: _ =>
      Some (mkLedger
              ({[question first]} ∪ usedFirstClues ledger)
              (foldl (λ used pair, {[pair]} ∪ used)
                 (usedConsecutivePairs ledger) (pairKeys shuffledClues)))
  end.

(** ** The sequence generator *)

Definition maxAttempts : nat := 100.

Definition liftOption {A} (o : option A) : M A :=
  match o with
  | Some a => ret a
  | None => throw TypeError
  end.

(** [violatesConstraints] applied to the array at [shuffledClues]. *)
Definition violatesAt (shuffledClues : loc) (ledger : Ledger) : M bool :=
  let* l := readArray shuffledClues in
  liftOption
    (violatesConstraints l (usedFirstClues ledger) (usedConsecutivePairs ledger)).

(** The step pushed at index [i] of the loop over [shuffledClues]. The guard
    [i < shuffledClues.length - 1] followed by the read
    [shuffledClues[i + 1]] is the lookup at [i + 1]. *)
Definition stepAt (groupNum : nat) (finalClue : Clue)
    (shuffledClues : list Clue) (i : nat) (clue : Clue) : Step :=
  let clueNumber := i + 1 in
  let nextClue :=
    match shuffledClues !! (i + 1) with
    | Some next =>
        "Group " +:+ pretty groupNum +:+ " Clue " +:+ pretty (clueNumber + 1)
          +:+ ". " +:+ question next
    | None =>
        "Group " +:+ pretty groupNum +:+ " Clue " +:+ pretty (clueNumber + 1)
          +:+ ". " +:+ question finalClue
    end in
  mkStep clueNumber (question clue)
    ("Hide this at/with: " +:+ answer clue) nextClue.

(** The step of the final clue, pushed last. *)
Definition finalStep (finalClue : Clue) (shuffledClues : list Clue) : Step :=
  mkStep (length shuffledClues + 1) (question finalClue)
    ("Hide this at/with: " +:+ answer finalClue)
    (pretty (length shuffledClues + 2) +:+ ". The End").

(** [candidateSequence] once both pushes are done. *)
Definition candidateSequence (groupNum : nat) (finalClue : Clue)
    (shuffledClues : list Clue) : list Step :=
  imap (stepAt groupNum finalClue shuffledClues) shuffledClues
    ++ [finalStep finalClue shuffledClues].

(** The choice of [shuffledClues] in one attempt: the alternating sequence,
    replaced by a plain shuffle of a copy when it is [null] or rejected;
    [None] is the [continue] of the script. *)
Definition chooseShuffledClues (randomizableClues : loc) (ledger : Ledger)
    : M (option loc) :=
  let* shuffledClues := createAlternatingSequence randomizableClues in
  let* fallBack :=
    match shuffledClues with
    | None => ret true
    | Some a => violatesAt a ledger
    end in
  if fallBack then
    let* rc := readArray randomizableClues in
    let* copy := newArray rc in
    shuffleArray copy ;;;
    let* rejected := violatesAt copy ledger in
    if rejected then ret None else ret (Some copy)
  else ret shuffledClues.

(** The loop [while (sequence === null && attempts < maxAttempts)] of one
    group. Every iteration increments [attempts], so [fuel] iterations
    suffice when [fuel + attempts = maxAttempts]; the condition on
    [attempts] is tested as in the script. The loop answers with the final
    values of [sequence] and [attempts] and with the ledger. *)
Fixpoint whileSearching (fuel : nat) (groupNum : nat) (randomizableClues : loc)
    (finalClue : Clue) (attempts : nat) (ledger : Ledger)
    : M (option (list Step) * nat * Ledger) :=
  match fuel with
  | 0 => ret (None, attempts, ledger)
  | S fuel' =>
      if attempts <? maxAttempts then
        let attempts := attempts + 1 in
        emit (EvAttempt groupNum attempts) ;;;
        let* chosen := chooseShuffledClues randomizableClues ledger in
        match chosen with
        | None =>
            whileSearching fuel' groupNum randomizableClues finalClue
              attempts ledger
        | Some shuffledClues =>
            let* l := readArray shuffledClues in
            let sequence := candidateSequence groupNum finalClue l in
            emit (EvRecord groupNum) ;;;
            let* ledger' := liftOption (recordConstraints l ledger) in
            ret (Some sequence, attempts, ledger')
        end
      else ret (None, attempts, ledger)
  end.

Definition exhaustedMessage (groupNum : nat) : string :=
  "Could not generate valid sequence for Group " +:+ pretty groupNum
    +:+ " after " +:+ pretty maxAttempts
    +:+ " attempts. Try using more clues or fewer groups.".

(** The loop [for (let groupNum = 1; groupNum <= numGroups; groupNum++)],
    entered at [groupNum] with [n] groups left. *)
Fixpoint forGroups (n : nat) (groupNum : nat) (randomizableClues : loc)
    (finalClue : Clue) (allSequences : gmap nat (list Step)) (ledger : Ledger)
    : M (gmap nat (list Step)) :=
  match n with
  | 0 => ret allSequences
  | S n' =>
      let* found :=
        whileSearching maxAttempts groupNum randomizableClues finalClue 0
          ledger in
      match found with
      | (None, _, _) => throw (Error (exhaustedMessage groupNum))
      | (Some sequence, _, ledger') =>
          forGroups n' (S groupNum) randomizableClues finalClue
            (<[groupNum := sequence]> allSequences) ledger'
      end
  end.

Definition insufficientMessage : string :=
  "Need at least 2 clues to generate a hunt".

(** [generateHuntSequences(clues, numGroups)]. The read
    [clues[clues.length - 1]] comes after the length test, which makes it
    defined. *)
Definition generateHuntSequences (clues : loc) (numGroups : nat)
    : M (gmap nat (list Step)) :=
  let* cl := readArray clues in
  if length cl <? 2 then throw (Error insufficientMessage)
  else
    let* finalClue := liftOption (cl !! (length cl - 1)) in
    let* randomizableClues := newArray (take (length cl - 1) cl) in
    forGroups numGroups 1 randomizableClues finalClue ∅ (mkLedger ∅ ∅).

(** ** The sheets *)

(** The name [`Group ${groupNum}`] under which [createGroupSheet] inserts
    the sheet of a group. *)
Definition groupSheetName (groupNum : nat) : string :=
  "Group " +:+ pretty groupNum.

(** The array [data] that [createGroupSheet] hands to [setValues]: the
    header, the row of the first clue and one row per step. Reading
    [sequence[0].question] of an empty sequence raises a [TypeError], here
    [None]. The calls on the spreadsheet themselves are not modelled. *)
Definition groupSheetData (groupNum : nat) (sequence : list Step)
    : option (list (list string)) :=
  match sequence with
  | [] => None
  | first :: _ =>
      Some
        (["Location"; "Clue"]%string
         :: ["Group " +:+ pretty groupNum +:+ " First Clue";
             "Group " +:+ pretty groupNum +:+ " Clue 1. "
               +:+ stepQuestion first]
         :: ((λ clueSeq, [location clueSeq; nextClue clueSeq]) <$> sequence))
  end.

(** A cell of the master sheet: a number or a text. *)
Inductive Cell :=
| CellNumber (n : nat)
| CellString (s : string).

(** [Object.entries] of an object whose keys are group numbers: the
    entries by ascending key. *)
Definition objectEntries {V} (o : gmap nat V) : list (nat * V) :=
  omap (λ k, pair k <$> o !! k)
    (seq 0 (S (max_list ((map_to_list o).*1)))).

(** The row of one step in the master sheet. *)
Definition masterRow (groupNum : nat) (clueSeq : Step) : list Cell :=
  [ CellString ("Group " +:+ pretty groupNum);
    CellNumber (clueNumber clueSeq);
    CellString (stepQuestion clueSeq);
    CellString (location clueSeq);
    CellString (nextClue clueSeq) ].

(** The array [data] that [createMasterSheet] hands to [setValues]; the
    calls on the spreadsheet themselves are not modelled. *)
Definition masterSheetData (allSequences : gmap nat (list Step))
    : list (list Cell) :=
  [ CellString "Group"; CellString "Clue Number"; CellString "Question";
    CellString "Location"; CellString "Next Clue" ]
  :: mjoin ((λ entry, masterRow entry.1 <$> entry.2)
              <$> objectEntries allSequences).

(** [\d]: one of the ten ASCII digits. *)
Definition isDigit (c : ascii) : bool :=
  (48 <=? nat_of_ascii c) && (nat_of_ascii c <=? 57).

Fixpoint allDigits (s : string) : bool :=
  match s with
  | EmptyString => true
  | String c s' => isDigit c && allDigits s'
  end.

(** What follows [p] in [s] when [s] starts with [p]. *)
Fixpoint afterPrefix (p s : string) : option string :=
  match p with
  | EmptyString => Some s
  | String a p' =>
      match s with
      | EmptyString => None
      | String b s' => if Ascii.eqb a b then afterPrefix p' s' else None
      end
  end.

(** [sheetName.match(/^Group \d+$/)], as a truth value. *)
Definition matchesGroupSheet (sheetName : string) : bool :=
  match afterPrefix "Group " sheetName with
  | Some digits => negb (String.eqb digits "") && allDigits digits
  | None => false
  end.

(** [cleanupExistingHuntSheets] on the names of the sheets of the
    spreadsheet, in the order of [getSheets()]: the names of the sheets it
    passes to [deleteSheet], in the order of the calls. *)
Definition cleanupExistingHuntSheets (sheets : list string) : list string :=
  filter (λ sheetName,
            String.eqb sheetName "Master" || matchesGroupSheet sheetName)
    sheets.

(** * Vocabulary of the properties *)

(** [grows n w w']: no array was freed, and the arrays below [n] are the
    same. *)
Definition grows (n : nat) (w w' : World) : Prop :=
  length (heap w) ≤ length (heap w') ∧
  ∀ b, b < n → heap w' !! b = heap w !! b.

(** What an in-place operation on the array at [a] may change: the contents
    of that array, not its length, and the tape. *)
Definition inPlace (a : loc) (w w' : World) : Prop :=
  length (heap w') = length (heap w) ∧
  (∀ b, b ≠ a → heap w' !! b = heap w !! b) ∧
  length (arrayAt w' a) = length (arrayAt w a) ∧
  log w' = log w.

(** The events [attempts++] from the value [a] (excluded) to [b]. *)
Definition attemptEvents (groupNum a b : nat) : list Event :=
  EvAttempt groupNum <$> seq (S a) (b - a).

(** The questions of the steps before the final step of a sequence. *)
Definition questionsOf (sequence : list Step) : list string :=
  stepQuestion <$> take (length sequence - 1) sequence.

(** The keys of the adjacent pairs of a list of questions. *)
Fixpoint keysOf (questions : list string) : list string :=
  match questions with
  | a :: (b :: _) as rest => (a +:+ "|" +:+ b) :: keysOf rest
  | _ => []
  end.

(** The events of the loop over [n] groups from [groupNum] on: a group that
    commits leaves between one and [maxAttempts] attempts and the record of
    its constraints; the group that fails, if any, leaves [maxAttempts]
    attempts and ends the run. *)
Fixpoint groupsLog (n groupNum : nat) (failed : option nat)
    (events : list Event) : Prop :=
  match n with
  | 0 => failed = None ∧ events = []
  | S n' =>
      (∃ a rest,
         1 ≤ a ≤ maxAttempts ∧
         events = attemptEvents groupNum 0 a ++ EvRecord groupNum :: rest ∧
         groupsLog n' (S groupNum) failed rest) ∨
      (failed = Some groupNum ∧ events = attemptEvents groupNum 0 maxAttempts)
  end.

(** What the loop knows when it enters [groupNum], having started at
    [start], on a randomizable pool of [size] clues. *)
Record committed (finalClue : Clue) (size : nat) (start : nat)
    (allSequences : gmap nat (list Step)) (ledger : Ledger) (groupNum : nat)
    : Prop := {
  committed_dom :
    ∀ k, is_Some (allSequences !! k) ↔ start ≤ k < groupNum;
  committed_shape :
    ∀ k s, allSequences !! k = Some s →
           ∃ l, l ≠ [] ∧ length l = size ∧
                s = candidateSequence k finalClue l;
  committed_first :
    ∀ k s q, allSequences !! k = Some s →
             head (questionsOf s) = Some q → q ∈ usedFirstClues ledger;
  committed_pairs :
    ∀ k s pair, allSequences !! k = Some s →
                pair ∈ keysOf (questionsOf s) →
                pair ∈ usedConsecutivePairs ledger;
  committed_distinct :
    ∀ k1 k2 s1 s2,
      k1 ≠ k2 → allSequences !! k1 = Some s1 → allSequences !! k2 = Some s2 →
      head (questionsOf s1) ≠ head (questionsOf s2) ∧
      ∀ pair, pair ∈ keysOf (questionsOf s1) → pair ∉ keysOf (questionsOf s2)
}.

Definition isAttemptOf (groupNum : nat) (e : Event) : bool :=
  match e with
  | EvAttempt g _ => g =? groupNum
  | EvRecord _ => false
  end.

(** The number of times [attempts++] ran for [groupNum]. *)
Definition attemptsMade (groupNum : nat) (events : list Event) : nat :=
  length (filter (λ e, isAttemptOf groupNum e) events).

(** The first entry of the array a call of the builder returned. *)
Definition openingOf (outcome : (Exn + option nat) * World) : option Clue :=
  match outcome with
  | (inr (Some a), w') => head (arrayAt w' a)
  | _ => None
  end.

(** ** Vocabulary of the further properties *)

(** The alternation of two lists that opens on the first: [x0, y0, x1, y1,
    ...], followed by what is left of the longer list. *)
Fixpoint alternate (xs ys : list Clue) : list Clue :=
  match xs with
  | [] => ys
  | x :: xs' =>
      x :: match ys with
           | [] => xs'
           | y :: ys' => y :: alternate xs' ys'
           end
  end.

(** The alternation of what is left of the places and of the persons when
    it is the turn of [currentType]. *)
Definition alternateFrom (currentType : Tag) (places persons : list Clue)
    : list Clue :=
  match currentType with
  | place => alternate places persons
  | person => alternate persons places
  end.

(** The alternation of [places] and [persons] has a Person in its
    second-to-last position: it ends on Person, Place or on a run of
    Persons. *)
Definition personBeforeLast (places persons : list Clue) : Prop :=
  length places = length persons + 1 ∨ length places < length persons.

#[global] Instance personBeforeLast_dec places persons :
  Decision (personBeforeLast places persons).
Proof. unfold personBeforeLast. apply _. Defined.

(** Every sequence of [allSequences] is built from an ordering of [pool]
    that the validator can accept: it opens on a clue that passes rule 1b
    and it follows the alternation rule. *)
Definition scheduled (pool : list Clue) (finalClue : Clue)
    (allSequences : gmap nat (list Step)) : Prop :=
  ∀ k s,
    allSequences !! k = Some s →
    ∃ first rest,
      first :: rest ≡ₚ pool ∧
      firstNotPlace first = false ∧
      followsAlternatingTypes (first :: rest) = true ∧
      s = candidateSequence k finalClue (first :: rest).

(** The swaps of [shuffleArray] from index [i] down to 1 on an array held as
    a value, [draws] being the tape. *)
Fixpoint shuffled (i : nat) (draws : list nat) (array : list Clue)
    : list Clue :=
  match i with
  | 0 => array
  | S i' =>
      match draws with
      | [] => shuffled i' [] (swap i 0 array)
      | x :: rest => shuffled i' rest (swap i (x mod (i + 1)) array)
      end
  end.

(** ** Sample inputs *)

(** The pool of the end-to-end example of the design document; with two
    groups and the tape of [sampleWorld] both groups commit. *)
Definition samplePool : list Clue :=
  [ mkClue "What has keys but can't open locks?" "Piano" (Some "Place"%string);
    mkClue "What has a face and two hands but no arms or legs?" "Clock"
      (Some "Place"%string);
    mkClue "Who created this scavenger hunt?" "Kevin" (Some "Person"%string) ].

Definition sampleWorld : World := mkWorld [samplePool] [0; 1; 0; 1; 1] [].

Definition sampleSequences : gmap nat (list Step) :=
  match fst (generateHuntSequences 0 2 sampleWorld) with
  | inr m => m
  | inl _ => ∅
  end.

Definition sampleEnd : World := snd (generateHuntSequences 0 2 sampleWorld).

(** The ledger once the two randomizable clues of [samplePool] are
    recorded in their order. *)
Definition sampleLedger : Ledger :=
  default (mkLedger ∅ ∅)
    (recordConstraints (take 2 samplePool) (mkLedger ∅ ∅)).

(** Three Places to order, before a final clue. *)
Definition placesPool : list Clue :=
  [ mkClue "Where do you cook your meals?" "Kitchen" (Some "Place"%string);
    mkClue "What room has books but no bookshelf?" "Library"
      (Some "place"%string);
    mkClue "Where do cars sleep at night?" "Garage" (Some "PLACE"%string);
    mkClue "Who created this scavenger hunt?" "Kevin" (Some "Person"%string) ].

(** The pool on which a lone group cannot start: a Person and the final
    clue. *)
Definition personFirstPool : list Clue :=
  [ mkClue "Who is your favorite teacher?" "Mrs. Smith" (Some "Person"%string);
    mkClue "Where do cars sleep at night?" "Garage" (Some "Place"%string) ].

Definition personFirstWorld : World := mkWorld [personFirstPool] [3; 1; 4] [].

(** One Place and two Persons. *)
Definition askewPool : list Clue :=
  [ mkClue "Where do you cook your meals?" "Kitchen" (Some "Place"%string);
    mkClue "Who is your favorite teacher?" "Mrs. Smith" (Some "Person"%string);
    mkClue "Who can help you check out a book?" "Librarian"
      (Some "Person"%string) ].

(** * Properties *)

(** ** Arrays as values: lengths *)

Section ListFacts.

Implicit Types (l result array : list Clue) (c : Clue).

Lemma length_swap i j array : length (swap i j array) = length array.
Proof.
  unfold swap. destruct (array !! i), (array !! j); try done.
  by rewrite !length_insert.
Qed.

(** The three filters of the builder split the pool. *)
Lemma isPerson_isPlace c : isPerson c = true → isPlace c = true → False.
Proof.
  unfold isPerson, isPlace, hasType. destruct (clueType c) as [s|]; [|done].
  rewrite !andb_true_iff, !String.eqb_eq. intros [_ Hp] [_ Hq].
  rewrite Hp in Hq. discriminate.
Qed.

Lemma isOther_spec c : isOther c = negb (isPerson c || isPlace c).
Proof.
  unfold isOther, isPerson, isPlace, hasType.
  destruct (clueType c) as [s|]; [|done].
  destruct (String.eqb s ""); simpl; done.
Qed.

Lemma length_partition l :
  length (filter (λ c, isPerson c) l) + length (filter (λ c, isPlace c) l)
    + length (filter (λ c, isOther c) l) = length l.
Proof.
  induction l as [|c l IH]; [done|].
  rewrite !filter_cons. rewrite isOther_spec.
  pose proof (isPerson_isPlace c) as Hex.
  destruct (isPerson c), (isPlace c); simpl; lia.
Qed.

Lemma length_interleave persons places n t pi li result :
  length (interleave persons places n t pi li result)
  = length result + (n `min` ((length persons - pi) + (length places - li))).
Proof.
  revert t pi li result. induction n as [|n IH]; intros t pi li result.
  { simpl. lia. }
  cbn [interleave].
  destruct (places !! li) as [c|] eqn:Hl, (persons !! pi) as [d|] eqn:Hp;
    try (apply lookup_lt_Some in Hl); try (apply lookup_lt_Some in Hp);
    try (apply lookup_ge_None in Hl); try (apply lookup_ge_None in Hp);
    destruct t; rewrite IH, ?length_app; cbn [length]; lia.
Qed.

Lemma length_preferPlaceSecondToLast result :
  length (preferPlaceSecondToLast result) = length result.
Proof.
  unfold preferPlaceSecondToLast.
  destruct (2 <=? length result); [|done].
  destruct (result !! (length result - 2)) as [c|]; [|done].
  destruct (isPerson c); [|done].
  destruct (searchPlace _ _ _); [|done].
  apply length_swap.
Qed.

Lemma length_splice pos c result :
  length (splice pos c result) = S (length result).
Proof.
  unfold splice. rewrite length_app. simpl. rewrite length_take, length_drop.
  lia.
Qed.

End ListFacts.

(** ** Effects of the array operations on the heap *)

Lemma grows_refl n w : grows n w w.
Proof. by split. Qed.

Lemma grows_trans n w1 w2 w3 : grows n w1 w2 → grows n w2 w3 → grows n w1 w3.
Proof.
  intros [Hl1 H1] [Hl2 H2]. split; [lia|].
  intros b Hb. by rewrite H2, H1.
Qed.

Lemma grows_mono n m w w' : m ≤ n → grows n w w' → grows m w w'.
Proof. intros Hm [Hl H]. split; [done|]. intros b Hb. apply H. lia. Qed.

Lemma grows_arrayAt n w w' a : grows n w w' → a < n → arrayAt w' a = arrayAt w a.
Proof. intros [_ H] Ha. unfold arrayAt. by rewrite H. Qed.

Lemma bind_ok {A B} (m : M A) (k : A → M B) w a w1 :
  m w = (inr a, w1) → bind m k w = k a w1.
Proof. unfold bind. by intros ->. Qed.

(** Run the first action of a [bind] whose outcome [E] is known. *)
Ltac step E := rewrite (bind_ok _ _ _ _ _ E); clear E.

Lemma arrayAt_alter f a h t lg :
  arrayAt (mkWorld (alter f a h) t lg) a
  = match h !! a with Some x => f x | None => [] end.
Proof.
  unfold arrayAt. cbn [heap]. rewrite list_lookup_alter_eq.
  by destruct (h !! a).
Qed.

Lemma arrayAt_new h l t lg :
  arrayAt (mkWorld (h ++ [l]) t lg) (length h) = l.
Proof.
  unfold arrayAt. cbn [heap].
  by rewrite lookup_app_r, Nat.sub_diag by lia.
Qed.

Lemma grows_new n w l :
  n ≤ length (heap w) → grows n w (mkWorld (heap w ++ [l]) (tape w) (log w)).
Proof.
  intros Hn. split; cbn [heap].
  - rewrite length_app. lia.
  - intros b Hb. apply lookup_app_l. lia.
Qed.

Lemma grows_alter n w f a t lg :
  n ≤ a → grows n w (mkWorld (alter f a (heap w)) t lg).
Proof.
  intros Hn. split; cbn [heap].
  - by rewrite length_alter.
  - intros b Hb. apply list_lookup_alter_ne. lia.
Qed.

Lemma inPlace_grows n a w w' : n ≤ a → inPlace a w w' → grows n w w'.
Proof.
  intros Hn (Hl & H & _). split; [lia|]. intros b Hb. apply H. lia.
Qed.

Lemma inPlace_arrayAt a b w w' : inPlace a w w' → b ≠ a → arrayAt w' b = arrayAt w b.
Proof. intros (_ & H & _) Hb. unfold arrayAt. by rewrite H. Qed.

Lemma floorRandomTimes_spec k w :
  ∃ j w1, floorRandomTimes k w = (inr j, w1) ∧
          heap w1 = heap w ∧ log w1 = log w.
Proof. unfold floorRandomTimes. destruct (tape w); eauto. Qed.

Lemma shuffleFrom_spec array i w :
  ∃ w', shuffleFrom array i w = (inr tt, w') ∧ inPlace array w w'.
Proof.
  revert w. induction i as [|i IH]; intros w.
  { exists w. split; [done|]. by repeat split. }
  cbn [shuffleFrom].
  destruct (floorRandomTimes_spec (S i + 1) w) as (j & w1 & Hj & Hh & Hlg).
  rewrite (bind_ok _ _ _ _ _ Hj). unfold bind at 1, modifyArray.
  destruct (IH (mkWorld (alter (swap (S i) j) array (heap w1)) (tape w1) (log w1)))
    as (w' & Heq & Hl & Hne & Hlen & Hlog).
  exists w'. split; [exact Heq|].
  cbn [heap log] in *. rewrite length_alter in Hl. rewrite Hh in *.
  split; [exact Hl|]. split.
  { intros b Hb. by rewrite Hne, list_lookup_alter_ne by done. }
  split; [|congruence].
  rewrite Hlen, arrayAt_alter. unfold arrayAt.
  destruct (heap w !! array); [apply length_swap|done].
Qed.

Lemma shuffleArray_spec array w :
  ∃ w', shuffleArray array w = (inr tt, w') ∧ inPlace array w w'.
Proof. unfold shuffleArray, bind at 1, readArray. apply shuffleFrom_spec. Qed.

Lemma newArray_spec l w :
  ∃ w1, newArray l w = (inr (length (heap w)), w1) ∧
        grows (length (heap w)) w w1 ∧
        length (heap w1) = S (length (heap w)) ∧
        arrayAt w1 (length (heap w)) = l ∧
        log w1 = log w ∧ tape w1 = tape w.
Proof.
  eexists. split; [reflexivity|]. split; [by apply grows_new|].
  cbn [heap log tape]. rewrite length_app, arrayAt_new. simpl.
  repeat split; lia.
Qed.

Lemma modifyArray_spec a f w :
  a < length (heap w) →
  ∃ w1, modifyArray a f w = (inr tt, w1) ∧
        grows a w w1 ∧
        length (heap w1) = length (heap w) ∧
        arrayAt w1 a = f (arrayAt w a) ∧
        log w1 = log w ∧ tape w1 = tape w.
Proof.
  intros Ha. eexists. split; [reflexivity|]. split; [by apply grows_alter|].
  cbn [heap log tape]. rewrite length_alter, arrayAt_alter. unfold arrayAt.
  destruct (lookup_lt_is_Some_2 (heap w) a Ha) as [x ->]. done.
Qed.

Lemma insertOthers_spec result others w :
  result < length (heap w) →
  ∃ w', insertOthers result others w = (inr tt, w') ∧
        grows result w w' ∧
        length (heap w') = length (heap w) ∧
        length (arrayAt w' result) = length (arrayAt w result) + length others ∧
        log w' = log w.
Proof.
  revert w. induction others as [|clue rest IH]; intros w Hr.
  { exists w. split; [done|]. split; [apply grows_refl|]. simpl.
    repeat split; lia. }
  cbn [insertOthers]. unfold bind at 1, readArray.
  destruct (floorRandomTimes_spec (length (arrayAt w result)) w)
    as (x & w1 & Hx & Hh & Hlg).
  rewrite (bind_ok _ _ _ _ _ Hx).
  assert (Hr1 : result < length (heap w1)) by by rewrite Hh.
  destruct (modifyArray_spec result (splice (x + 1) clue) w1 Hr1)
    as (w2 & Hm & Hg2 & Hl2 & Ha2 & Hlg2 & _).
  rewrite (bind_ok _ _ _ _ _ Hm).
  destruct (IH w2) as (w' & Heq & Hg & Hl & Ha & Hlg'); [lia|].
  exists w'. split; [exact Heq|].
  assert (Hg1 : grows result w w1).
  { split; [by rewrite Hh|]. intros b _. by rewrite Hh. }
  split; [eauto using grows_trans|].
  split; [congruence|]. split; [|congruence].
  rewrite Ha, Ha2, length_splice. unfold arrayAt. rewrite Hh. simpl. lia.
Qed.

Lemma createAlternatingSequence_spec clues w :
  ∃ o w', createAlternatingSequence clues w = (inr o, w') ∧
          grows (length (heap w)) w w' ∧
          log w' = log w ∧
          (length (arrayAt w clues) < 2 → o = None) ∧
          ∀ a, o = Some a →
               length (heap w) ≤ a < length (heap w') ∧
               length (arrayAt w' a) = length (arrayAt w clues).
Proof.
  unfold createAlternatingSequence. unfold bind at 1, readArray.
  set (cl := arrayAt w clues).
  pose proof (length_partition cl) as Hpart.
  destruct (newArray_spec (filter (λ c, isPerson c) cl) w)
    as (w1 & E1 & G1 & L1 & A1 & Lg1 & _).
  step E1.
  destruct (newArray_spec (filter (λ c, isPlace c) cl) w1)
    as (w2 & E2 & G2 & L2 & A2 & Lg2 & _).
  step E2.
  destruct (newArray_spec (filter (λ c, isOther c) cl) w2)
    as (w3 & E3 & G3 & L3 & A3 & Lg3 & _).
  step E3.
  unfold bind at 1, readArray. unfold bind at 1, readArray.
  set (personClues := length (heap w)) in *.
  set (placeClues := length (heap w1)) in *.
  set (otherClues := length (heap w2)) in *.
  assert (G03 : grows personClues w w3).
  { eapply grows_trans; [exact G1|]. eapply grows_trans.
    - eapply grows_mono; [|exact G2]. lia.
    - eapply grows_mono; [|exact G3]. lia. }
  assert (P3 : arrayAt w3 personClues = filter (λ c, isPerson c) cl).
  { rewrite <- A1. transitivity (arrayAt w2 personClues).
    - eapply grows_arrayAt; [exact G3|lia].
    - eapply grows_arrayAt; [exact G2|lia]. }
  assert (Q3 : arrayAt w3 placeClues = filter (λ c, isPlace c) cl).
  { rewrite <- A2. eapply grows_arrayAt; [exact G3|lia]. }
  rewrite P3, Q3.
  destruct (length (filter (λ c, isPlace c) cl) =? 0) eqn:Hz.
  { exists None, w3. split; [done|]. split; [done|].
    split; [congruence|]. split; [done|]. intros a Ha. discriminate. }
  destruct (length (filter (λ c, isPerson c) cl) +
            length (filter (λ c, isPlace c) cl) <? 2) eqn:Htwo.
  { exists None, w3. split; [done|]. split; [done|].
    split; [congruence|]. split; [done|]. intros a Ha. discriminate. }
  apply Nat.eqb_neq in Hz. apply Nat.ltb_ge in Htwo.
  destruct (shuffleArray_spec personClues w3) as (w4 & E4 & S4).
  step E4.
  destruct (shuffleArray_spec placeClues w4) as (w5 & E5 & S5).
  step E5.
  destruct (shuffleArray_spec otherClues w5) as (w6 & E6 & S6).
  step E6.
  destruct (newArray_spec [] w6) as (w7 & E7 & G7 & L7 & A7 & Lg7 & _).
  step E7.
  unfold bind at 1, readArray. unfold bind at 1, readArray.
  set (result := length (heap w6)) in *.
  pose proof S4 as (L4 & _ & Len4 & Lg4).
  pose proof S5 as (L5 & _ & Len5 & Lg5).
  pose proof S6 as (L6 & _ & Len6 & Lg6).
  assert (Hp7 : length (arrayAt w7 personClues)
                = length (filter (λ c, isPerson c) cl)).
  { rewrite (grows_arrayAt _ _ _ _ G7) by lia.
    rewrite (inPlace_arrayAt _ _ _ _ S6) by lia.
    rewrite (inPlace_arrayAt _ _ _ _ S5) by lia.
    by rewrite Len4, P3. }
  assert (Hq7 : length (arrayAt w7 placeClues)
                = length (filter (λ c, isPlace c) cl)).
  { rewrite (grows_arrayAt _ _ _ _ G7) by lia.
    rewrite (inPlace_arrayAt _ _ _ _ S6) by lia.
    rewrite Len5.
    rewrite (inPlace_arrayAt _ _ _ _ S4) by lia.
    by rewrite Q3. }
  assert (Ho7 : length (arrayAt w7 otherClues)
                = length (filter (λ c, isOther c) cl)).
  { rewrite (grows_arrayAt _ _ _ _ G7) by lia.
    rewrite Len6.
    rewrite (inPlace_arrayAt _ _ _ _ S5) by lia.
    rewrite (inPlace_arrayAt _ _ _ _ S4) by lia.
    by rewrite A3. }
  set (persons := arrayAt w7 personClues) in *.
  set (places := arrayAt w7 placeClues) in *.
  destruct (modifyArray_spec result
              (interleave persons places (length persons + length places)
                 place 0 0) w7)
    as (w8 & E8 & G8 & L8 & A8 & Lg8 & _); [lia|].
  step E8.
  destruct (modifyArray_spec result preferPlaceSecondToLast w8)
    as (w9 & E9 & G9 & L9 & A9 & Lg9 & _); [lia|].
  step E9.
  unfold bind at 1, readArray.
  destruct (insertOthers_spec result (arrayAt w9 otherClues) w9)
    as (w10 & E10 & G10 & L10 & A10 & Lg10); [lia|].
  step E10.
  exists (Some result), w10. split; [done|].
  assert (G36 : grows personClues w3 w6).
  { eapply grows_trans; [eapply inPlace_grows; [|exact S4]; lia|].
    eapply grows_trans; [eapply inPlace_grows; [|exact S5]; lia|].
    eapply inPlace_grows; [|exact S6]; lia. }
  assert (G610 : grows personClues w6 w10).
  { eapply grows_trans; [eapply grows_mono; [|exact G7]; lia|].
    eapply grows_trans; [eapply grows_mono; [|exact G8]; lia|].
    eapply grows_trans; [eapply grows_mono; [|exact G9]; lia|].
    eapply grows_mono; [|exact G10]; lia. }
  split; [eauto using grows_trans|].
  split; [congruence|].
  split; [intros Hlt; lia|].
  intros a [= <-]. split; [lia|].
  rewrite A10, A9, length_preferPlaceSecondToLast, A8, length_interleave, A7.
  rewrite (grows_arrayAt _ _ _ _ G9) by lia.
  rewrite (grows_arrayAt _ _ _ _ G8) by lia.
  fold persons places. rewrite Ho7. simpl. lia.
Qed.

(** ** One attempt *)

Lemma violatesConstraints_defined l F P :
  l ≠ [] → ∃ b, violatesConstraints l F P = Some b.
Proof. destruct l; [done|]. intros _. eexists. reflexivity. Qed.

Lemma violatesAt_spec a ledger w :
  arrayAt w a ≠ [] →
  ∃ b, violatesAt a ledger w = (inr b, w) ∧
       violatesConstraints (arrayAt w a) (usedFirstClues ledger)
         (usedConsecutivePairs ledger) = Some b.
Proof.
  intros Hne. unfold violatesAt, bind, readArray.
  destruct (violatesConstraints_defined _ (usedFirstClues ledger)
              (usedConsecutivePairs ledger) Hne) as [b Hb].
  exists b. by rewrite Hb.
Qed.

Lemma length_nonempty {A} (l l' : list A) :
  length l = length l' → l' ≠ [] → l ≠ [].
Proof. destruct l, l'; naive_solver. Qed.

Lemma chooseShuffledClues_spec randomizableClues ledger w :
  randomizableClues < length (heap w) →
  arrayAt w randomizableClues ≠ [] →
  ∃ o w', chooseShuffledClues randomizableClues ledger w = (inr o, w') ∧
          grows (length (heap w)) w w' ∧
          log w' = log w ∧
          ∀ a, o = Some a →
               length (arrayAt w' a) = length (arrayAt w randomizableClues) ∧
               violatesConstraints (arrayAt w' a) (usedFirstClues ledger)
                 (usedConsecutivePairs ledger) = Some false.
Proof.
  intros Hrc Hne. unfold chooseShuffledClues.
  destruct (createAlternatingSequence_spec randomizableClues w)
    as (o & w1 & E1 & G1 & Lg1 & _ & H1).
  step E1.
  assert (Hfall : ∃ fallBack,
    (match o with
     | None => ret true
     | Some a => violatesAt a ledger
     end) w1 = (inr fallBack, w1) ∧
    (fallBack = false → ∃ a, o = Some a ∧
       violatesConstraints (arrayAt w1 a) (usedFirstClues ledger)
         (usedConsecutivePairs ledger) = Some false)).
  { destruct o as [a|]; [|by exists true].
    destruct (H1 a eq_refl) as [_ Hlen].
    destruct (violatesAt_spec a ledger w1) as (b & Eb & Hb).
    { eapply length_nonempty; eauto. }
    exists b. split; [done|]. intros ->. eauto. }
  destruct Hfall as (fallBack & E2 & Hfb).
  step E2.
  destruct fallBack.
  - unfold bind at 1, readArray.
    destruct (newArray_spec (arrayAt w1 randomizableClues) w1)
      as (w2 & E3 & G2 & L2 & A2 & Lg2 & _).
    step E3.
    destruct (shuffleArray_spec (length (heap w1)) w2) as (w3 & E4 & S3).
    step E4.
    pose proof S3 as (L3 & _ & Len3 & Lg3).
    pose proof G1 as [Hle1 _].
    assert (Hlen : length (arrayAt w3 (length (heap w1)))
                   = length (arrayAt w randomizableClues)).
    { rewrite Len3, A2. by rewrite (grows_arrayAt _ _ _ _ G1). }
    destruct (violatesAt_spec (length (heap w1)) ledger w3) as (b & Eb & Hb).
    { eapply length_nonempty; eauto. }
    step Eb.
    assert (G3 : grows (length (heap w)) w w3).
    { eapply grows_trans; [exact G1|].
      eapply grows_trans; [eapply grows_mono; [|exact G2]; lia|].
      eapply inPlace_grows; [|exact S3]. lia. }
    destruct b.
    + exists None, w3. split; [done|]. split; [done|].
      split; [congruence|]. intros a [=].
    + exists (Some (length (heap w1))), w3. split; [done|]. split; [done|].
      split; [congruence|]. intros a [= <-]. done.
  - destruct (Hfb eq_refl) as (a & -> & Hv).
    exists (Some a), w1. split; [done|]. split; [done|]. split; [done|].
    intros a' [= <-]. destruct (H1 a eq_refl) as [_ Hlen]. done.
Qed.

(** ** The retry loop of one group *)

Lemma attemptEvents_nil groupNum a : attemptEvents groupNum a a = [].
Proof. unfold attemptEvents. by rewrite Nat.sub_diag. Qed.

Lemma attemptEvents_cons groupNum a b :
  a < b →
  attemptEvents groupNum a b
  = EvAttempt groupNum (S a) :: attemptEvents groupNum (S a) b.
Proof.
  intros Hab. unfold attemptEvents.
  replace (b - a) with (S (b - S a)) by lia. done.
Qed.

Lemma recordConstraints_defined l ledger :
  l ≠ [] → ∃ ledger', recordConstraints l ledger = Some ledger'.
Proof. destruct l; [done|]. intros _. eexists. reflexivity. Qed.

Lemma whileSearching_spec fuel groupNum randomizableClues finalClue
    attempts ledger w :
  randomizableClues < length (heap w) →
  arrayAt w randomizableClues ≠ [] →
  ∃ found att ledger' w',
    whileSearching fuel groupNum randomizableClues finalClue attempts ledger w
    = (inr (found, att, ledger'), w') ∧
    grows (length (heap w)) w w' ∧
    attempts ≤ att ≤ attempts `max` maxAttempts ∧
    log w' = log w ++ attemptEvents groupNum attempts att
               ++ match found with
                  | Some _ => [EvRecord groupNum]
                  | None => []
                  end ∧
    match found with
    | None => ledger' = ledger ∧ (maxAttempts ≤ fuel + attempts → maxAttempts ≤ att)
    | Some sequence =>
        attempts < att ∧
        ∃ l, length l = length (arrayAt w randomizableClues) ∧
             sequence = candidateSequence groupNum finalClue l ∧
             violatesConstraints l (usedFirstClues ledger)
               (usedConsecutivePairs ledger) = Some false ∧
             recordConstraints l ledger = Some ledger'
    end.
Proof.
  revert attempts w. induction fuel as [|fuel IH]; intros attempts w Hrc Hne.
  { exists None, attempts, ledger, w. split; [done|].
    split; [apply grows_refl|]. split; [lia|].
    rewrite attemptEvents_nil, !app_nil_r. split; [done|].
    split; [done|]. simpl. lia. }
  cbn [whileSearching]. destruct (attempts <? maxAttempts) eqn:Hlt.
  2:{ apply Nat.ltb_ge in Hlt.
      exists None, attempts, ledger, w. split; [done|].
      split; [apply grows_refl|]. split; [lia|].
      rewrite attemptEvents_nil, !app_nil_r. split; [done|].
      split; [done|]. lia. }
  apply Nat.ltb_lt in Hlt.
  replace (attempts + 1) with (S attempts) by lia.
  unfold bind at 1, emit.
  destruct (chooseShuffledClues_spec randomizableClues ledger
              (mkWorld (heap w) (tape w)
                 (log w ++ [EvAttempt groupNum (S attempts)])) Hrc Hne)
    as (chosen & w1 & E1 & G0 & Lg1 & H1).
  step E1.
  assert (G1 : grows (length (heap w)) w w1) by exact G0. clear G0.
  cbn [log] in Lg1.
  destruct chosen as [shuffledClues|].
  - destruct (H1 _ eq_refl) as [Hlen Hv].
    unfold bind at 1, readArray. unfold bind at 1, emit.
    destruct (recordConstraints_defined (arrayAt w1 shuffledClues) ledger)
      as [ledger' Hrec].
    { eapply length_nonempty; eauto. }
    unfold bind at 1. cbn [heap tape log]. unfold arrayAt at 2. cbn [heap].
    fold (arrayAt w1 shuffledClues). rewrite Hrec. cbn [liftOption ret].
    eexists (Some _), (S attempts), ledger', _. split; [reflexivity|].
    split; [exact G1|]. split; [lia|]. cbn [log]. split.
    { rewrite Lg1.
      rewrite attemptEvents_cons, attemptEvents_nil by lia.
      by rewrite <- !app_assoc. }
    split; [lia|]. exists (arrayAt w1 shuffledClues). done.
  - destruct (IH (S attempts) w1) as (found & att & ledger' & w' & E & G & Hatt & Hlog & Hfound).
    { destruct G1 as [Hle _]. lia. }
    { rewrite (grows_arrayAt _ _ _ _ G1) by done. done. }
    exists found, att, ledger', w'. split; [exact E|].
    split.
    { eapply grows_trans; [exact G1|]. eapply grows_mono; [|exact G].
      by destruct G1. }
    split; [lia|]. split.
    { rewrite Hlog, Lg1.
      rewrite (attemptEvents_cons groupNum attempts att) by lia.
      by rewrite <- !app_assoc. }
    destruct found as [sequence|].
    + destruct Hfound as (Hlt' & l & Hl & Hrest). split; [lia|].
      exists l. split; [|done].
      rewrite Hl. by rewrite (grows_arrayAt _ _ _ _ G1).
    + destruct Hfound as [-> Hmax]. split; [done|]. intros. apply Hmax. lia.
Qed.

(** ** Sequences as values *)

Section SequenceFacts.

Variables (groupNum : nat) (finalClue : Clue).
Implicit Types (l : list Clue).

Lemma pairKeys_keysOf l : pairKeys l = keysOf (question <$> l).
Proof.
  induction l as [|a [|b l] IH]; [done..|].
  change (pairKey a b :: pairKeys (b :: l)
          = pairKey a b :: keysOf (question <$> b :: l)).
  by rewrite IH.
Qed.

Lemma length_candidateSequence l :
  length (candidateSequence groupNum finalClue l) = length l + 1.
Proof. unfold candidateSequence. by rewrite length_app, length_imap. Qed.

Lemma last_candidateSequence l :
  last (candidateSequence groupNum finalClue l) = Some (finalStep finalClue l).
Proof. unfold candidateSequence. apply last_snoc. Qed.

Lemma questionsOf_candidateSequence l :
  questionsOf (candidateSequence groupNum finalClue l) = question <$> l.
Proof.
  unfold questionsOf. rewrite length_candidateSequence.
  replace (length l + 1 - 1) with (length l) by lia.
  unfold candidateSequence.
  rewrite take_app_length' by by rewrite length_imap.
  apply list_eq. intros i.
  rewrite !list_lookup_fmap, list_lookup_imap.
  by destruct (l !! i).
Qed.

End SequenceFacts.

(** ** The validator and the ledger as values *)

Lemma violatesConstraints_false l F P :
  violatesConstraints l F P = Some false →
  ∃ first rest,
    l = first :: rest ∧
    (question first ∉ F) ∧
    firstNotPlace first = false ∧
    (∀ pair, pair ∈ pairKeys l → pair ∉ P) ∧
    followsAlternatingTypes l = true.
Proof.
  destruct l as [|first rest]; [done|]. intros H. exists first, rest.
  split; [done|]. unfold violatesConstraints in H.
  destruct (bool_decide (question first ∈ F)) eqn:H1; [done|].
  destruct (firstNotPlace first) eqn:H2; [done|].
  destruct (existsb _ _) eqn:H3; [done|].
  destruct (followsAlternatingTypes (first :: rest)) eqn:H4; [|done].
  apply bool_decide_eq_false in H1.
  split; [done|]. split; [done|]. split; [|done].
  intros pair Hin HP.
  assert (existsb (λ pair, bool_decide (pair ∈ P)) (pairKeys (first :: rest))
          = true); [|congruence].
  apply existsb_exists. exists pair. split.
  - by apply list_elem_of_In.
  - by apply bool_decide_eq_true.
Qed.

Lemma elem_of_foldl_add (keys : list string) (used : gset string) pair :
  pair ∈ foldl (λ used pair, {[pair]} ∪ used) used keys
  ↔ pair ∈ used ∨ pair ∈ keys.
Proof.
  revert used. induction keys as [|k keys IH]; intros used; simpl.
  - rewrite elem_of_nil. tauto.
  - rewrite IH, elem_of_union, elem_of_singleton, elem_of_cons. tauto.
Qed.

Lemma recordConstraints_Some l ledger ledger' :
  recordConstraints l ledger = Some ledger' →
  ∃ first rest,
    l = first :: rest ∧
    usedFirstClues ledger' = {[question first]} ∪ usedFirstClues ledger ∧
    ∀ pair, pair ∈ usedConsecutivePairs ledger'
            ↔ pair ∈ usedConsecutivePairs ledger ∨ pair ∈ pairKeys l.
Proof.
  destruct l as [|first rest]; [done|]. intros [= <-].
  exists first, rest. split; [done|]. split; [done|].
  intros pair. cbn [usedConsecutivePairs]. apply elem_of_foldl_add.
Qed.

(** ** The loop over the groups *)

Section Groups.

Variables (finalClue : Clue) (size : nat).

Lemma committed_empty start : committed finalClue size start ∅ (mkLedger ∅ ∅) start.
Proof.
  split.
  - intros k. rewrite lookup_empty. split; [by intros [? ?]|lia].
  - intros k s. by rewrite lookup_empty.
  - intros k s q. by rewrite lookup_empty.
  - intros k s pair. by rewrite lookup_empty.
  - intros k1 k2 s1 s2 _. by rewrite lookup_empty.
Qed.

Lemma committed_step start allSequences ledger groupNum l ledger' :
  start ≤ groupNum →
  committed finalClue size start allSequences ledger groupNum →
  length l = size →
  violatesConstraints l (usedFirstClues ledger) (usedConsecutivePairs ledger)
  = Some false →
  recordConstraints l ledger = Some ledger' →
  committed finalClue size start
    (<[groupNum := candidateSequence groupNum finalClue l]> allSequences)
    ledger' (S groupNum).
Proof.
  intros Hstart [Hdom Hshape Hfirst Hpairs Hdistinct] Hlen Hv Hrec.
  apply violatesConstraints_false in Hv
    as (first & rest & -> & HnF & _ & HnP & _).
  apply recordConstraints_Some in Hrec
    as (first' & rest' & [= <- <-] & HF' & HP').
  set (l := first :: rest) in *.
  set (s := candidateSequence groupNum finalClue l).
  assert (Hq : questionsOf s = question <$> l)
    by apply questionsOf_candidateSequence.
  assert (Hhead : head (questionsOf s) = Some (question first))
    by by rewrite Hq.
  assert (Hkeys : keysOf (questionsOf s) = pairKeys l)
    by by rewrite Hq, pairKeys_keysOf.
  assert (Hnew : ∀ k t, k ≠ groupNum → allSequences !! k = Some t →
            head (questionsOf s) ≠ head (questionsOf t) ∧
            (∀ pair, pair ∈ keysOf (questionsOf s) → pair ∉ keysOf (questionsOf t)) ∧
            (∀ pair, pair ∈ keysOf (questionsOf t) → pair ∉ keysOf (questionsOf s))).
  { intros k t Hk Ht. split; [|split].
    - rewrite Hhead. intros Heq. apply HnF. by eapply Hfirst.
    - rewrite Hkeys. intros pair Hin Hin'. eapply HnP; [exact Hin|].
      by eapply Hpairs.
    - rewrite Hkeys. intros pair Hin Hin'. eapply HnP; [exact Hin'|].
      by eapply Hpairs. }
  split.
  - intros k. rewrite lookup_insert_is_Some, Hdom. lia.
  - intros k t. rewrite lookup_insert_Some. intros [[<- <-]|[Hk Ht]].
    + by exists l.
    + by eapply Hshape.
  - intros k t q. rewrite lookup_insert_Some, HF'.
    intros [[<- <-]|[Hk Ht]] Hh.
    + rewrite Hhead in Hh. injection Hh as <-.
      apply elem_of_union_l. by apply elem_of_singleton.
    + apply elem_of_union_r. by eapply Hfirst.
  - intros k t pair. rewrite lookup_insert_Some, HP'.
    intros [[<- <-]|[Hk Ht]] Hin.
    + right. by rewrite <- Hkeys.
    + left. by eapply Hpairs.
  - intros k1 k2 s1 s2 Hne. rewrite !lookup_insert_Some.
    intros [[<- <-]|[Hk1 H1]] [[<- <-]|[Hk2 H2]].
    + done.
    + destruct (Hnew k2 s2) as (? & ? & ?); eauto.
    + destruct (Hnew k1 s1) as (? & ? & ?); eauto.
    + by apply (Hdistinct k1 k2).
Qed.

Lemma forGroups_spec n start groupNum randomizableClues allSequences ledger w :
  start ≤ groupNum →
  randomizableClues < length (heap w) →
  arrayAt w randomizableClues ≠ [] →
  length (arrayAt w randomizableClues) = size →
  committed finalClue size start allSequences ledger groupNum →
  ∃ r w' failed events,
    forGroups n groupNum randomizableClues finalClue allSequences ledger w
    = (r, w') ∧
    grows (length (heap w)) w w' ∧
    log w' = log w ++ events ∧
    groupsLog n groupNum failed events ∧
    match r, failed with
    | inr m, None => ∃ ledger', committed finalClue size start m ledger' (groupNum + n)
    | inl e, Some k => e = Error (exhaustedMessage k)
    | _, _ => False
    end.
Proof.
  revert groupNum allSequences ledger w.
  induction n as [|n IH];
    intros groupNum allSequences ledger w Hstart Hrc Hne Hsize Hinv.
  { exists (inr allSequences), w, None, []. split; [done|].
    split; [apply grows_refl|]. rewrite app_nil_r. split; [done|].
    split; [done|]. exists ledger. by rewrite Nat.add_0_r. }
  cbn [forGroups].
  destruct (whileSearching_spec maxAttempts groupNum randomizableClues
              finalClue 0 ledger w Hrc Hne)
    as (found & att & ledger' & w1 & E & G & Hatt & Hlog & Hfound).
  step E.
  destruct found as [sequence|].
  - destruct Hfound as (Hpos & l & Hl & -> & Hv & Hrec).
    pose proof G as [Hle _].
    destruct (IH (S groupNum)
                (<[groupNum := candidateSequence groupNum finalClue l]>
                   allSequences) ledger' w1)
      as (r & w' & failed & events & E & G' & Hlog' & Hevents & Hr).
    { lia. }
    { lia. }
    { by rewrite (grows_arrayAt _ _ _ _ G). }
    { by rewrite (grows_arrayAt _ _ _ _ G). }
    { eapply committed_step; eauto. congruence. }
    exists r, w', failed,
      (attemptEvents groupNum 0 att ++ EvRecord groupNum :: events).
    split; [exact E|]. split.
    { eapply grows_trans; [exact G|]. eapply grows_mono; [|exact G']. done. }
    split.
    { rewrite Hlog', Hlog. by rewrite <- !app_assoc. }
    split.
    { left. exists att, events. split; [lia|done]. }
    by replace (groupNum + S n) with (S groupNum + n) by lia.
  - destruct Hfound as [-> Hmax].
    exists (inl (Error (exhaustedMessage groupNum))), w1, (Some groupNum),
      (attemptEvents groupNum 0 maxAttempts).
    assert (att = maxAttempts) as -> by lia.
    split; [done|]. split; [done|]. split.
    { by rewrite Hlog, app_nil_r. }
    split; [by right|done].
Qed.

End Groups.

(** ** The whole run *)

Lemma generateHuntSequences_short clues numGroups w :
  length (arrayAt w clues) < 2 →
  generateHuntSequences clues numGroups w
  = (inl (Error insufficientMessage), w).
Proof.
  intros Hlen. unfold generateHuntSequences, bind at 1, readArray.
  apply Nat.ltb_lt in Hlen. by rewrite Hlen.
Qed.

Lemma generateHuntSequences_spec clues numGroups w :
  2 ≤ length (arrayAt w clues) →
  ∃ finalClue r w' failed events,
    last (arrayAt w clues) = Some finalClue ∧
    generateHuntSequences clues numGroups w = (r, w') ∧
    grows (length (heap w)) w w' ∧
    log w' = log w ++ events ∧
    groupsLog numGroups 1 failed events ∧
    match r, failed with
    | inr m, None =>
        ∃ ledger',
          committed finalClue (length (arrayAt w clues) - 1) 1 m ledger'
            (1 + numGroups)
    | inl e, Some k => e = Error (exhaustedMessage k)
    | _, _ => False
    end.
Proof.
  intros Hlen. unfold generateHuntSequences, bind at 1, readArray.
  set (cl := arrayAt w clues) in *.
  apply Nat.ltb_ge in Hlen as Hlt. rewrite Hlt. clear Hlt.
  destruct (lookup_lt_is_Some_2 cl (length cl - 1)) as [finalClue Hfinal];
    [lia|].
  rewrite Hfinal. unfold bind at 1. cbn [liftOption ret].
  destruct (newArray_spec (take (length cl - 1) cl) w)
    as (w1 & E1 & G1 & L1 & A1 & Lg1 & _).
  step E1.
  assert (Hrand : length (arrayAt w1 (length (heap w))) = length cl - 1).
  { rewrite A1, length_take. lia. }
  destruct (forGroups_spec finalClue (length cl - 1) numGroups 1 1
              (length (heap w)) ∅ (mkLedger ∅ ∅) w1)
    as (r & w' & failed & events & E & G & Hlog & Hevents & Hr).
  { done. }
  { lia. }
  { intros Hnil. rewrite Hnil in Hrand. simpl in Hrand. lia. }
  { done. }
  { apply committed_empty. }
  exists finalClue, r, w', failed, events.
  split. { by rewrite last_lookup, <- Nat.sub_1_r. }
  split; [exact E|]. split.
  { eapply grows_trans; [exact G1|]. eapply grows_mono; [|exact G]. lia. }
  split; [congruence|]. done.
Qed.

Lemma run_success clues numGroups w m w' :
  generateHuntSequences clues numGroups w = (inr m, w') →
  2 ≤ length (arrayAt w clues) ∧
  ∃ finalClue ledger',
    last (arrayAt w clues) = Some finalClue ∧
    committed finalClue (length (arrayAt w clues) - 1) 1 m ledger'
      (1 + numGroups).
Proof.
  intros Hrun.
  destruct (decide (length (arrayAt w clues) < 2)) as [Hshort|Hlong].
  { rewrite generateHuntSequences_short in Hrun by done. discriminate. }
  split; [lia|].
  destruct (generateHuntSequences_spec clues numGroups w)
    as (finalClue & r & w1 & failed & events & Hlast & E & _ & _ & _ & Hr);
    [lia|].
  rewrite E in Hrun. injection Hrun as -> ->.
  destruct failed; [done|]. destruct Hr as [ledger' Hinv]. eauto.
Qed.

Lemma keysOf_lookup (questions : list string) i a b :
  questions !! i = Some a → questions !! (i + 1) = Some b →
  a +:+ "|" +:+ b ∈ keysOf questions.
Proof.
  revert i. induction questions as [|x [|y rest] IH]; intros i Ha Hb.
  - done.
  - destruct i; done.
  - destruct i as [|i].
    + injection Ha as ->. injection Hb as ->. apply list_elem_of_here.
    + apply list_elem_of_further. by apply (IH i).
Qed.

Lemma sample_run :
  generateHuntSequences 0 2 sampleWorld = (inr sampleSequences, sampleEnd).
Proof. vm_compute. reflexivity. Qed.

(** * Properties of the design document *)

(** C1. In a successful run with [numGroups] groups, any two distinct groups
    of [1..numGroups] have sequences whose first steps carry different
    questions. *)
Theorem first_questions_differ clues numGroups w m w' g1 g2 :
  generateHuntSequences clues numGroups w = (inr m, w') →
  1 ≤ g1 ≤ numGroups → 1 ≤ g2 ≤ numGroups → g1 ≠ g2 →
  ∃ step1 rest1 step2 rest2,
    m !! g1 = Some (step1 :: rest1) ∧
    m !! g2 = Some (step2 :: rest2) ∧
    stepQuestion step1 ≠ stepQuestion step2.
Proof.
  intros Hrun Hg1 Hg2 Hne.
  apply run_success in Hrun
    as (_ & finalClue & ledger' & _ & [Hdom Hshape _ _ Hdistinct]).
  destruct (proj2 (Hdom g1)) as [s1 H1]; [lia|].
  destruct (proj2 (Hdom g2)) as [s2 H2]; [lia|].
  destruct (Hdistinct g1 g2 s1 s2 Hne H1 H2) as [Hhead _].
  destruct (Hshape g1 s1 H1) as (l1 & Hl1 & _ & ->).
  destruct (Hshape g2 s2 H2) as (l2 & Hl2 & _ & ->).
  rewrite !questionsOf_candidateSequence in Hhead.
  destruct l1 as [|c1 l1]; [done|]. destruct l2 as [|c2 l2]; [done|].
  eexists _, _, _, _. split; [exact H1|]. split; [exact H2|].
  simpl in *. congruence.
Qed.

Lemma first_questions_differ_witness :
  ∃ step1 rest1 step2 rest2,
    sampleSequences !! 1 = Some (step1 :: rest1) ∧
    sampleSequences !! 2 = Some (step2 :: rest2) ∧
    stepQuestion step1 ≠ stepQuestion step2.
Proof.
  apply (first_questions_differ 0 2 sampleWorld sampleSequences sampleEnd 1 2);
    [exact sample_run | lia | lia | lia].
Defined.

(** C2. In a successful run, no ordered pair of questions is adjacent in the
    steps before the final step of two distinct groups. *)
Theorem no_shared_adjacent_pair clues numGroups w m w' g1 g2 s1 s2 i j a b :
  generateHuntSequences clues numGroups w = (inr m, w') →
  g1 ≠ g2 → m !! g1 = Some s1 → m !! g2 = Some s2 →
  questionsOf s1 !! i = Some a → questionsOf s1 !! (i + 1) = Some b →
  ¬ (questionsOf s2 !! j = Some a ∧ questionsOf s2 !! (j + 1) = Some b).
Proof.
  intros Hrun Hne H1 H2 Ha Hb [Ha' Hb'].
  apply run_success in Hrun
    as (_ & finalClue & ledger' & _ & [_ _ _ _ Hdistinct]).
  destruct (Hdistinct g1 g2 s1 s2 Hne H1 H2) as [_ Hkeys].
  apply (Hkeys (a +:+ "|" +:+ b)); by eapply keysOf_lookup.
Qed.

Lemma no_shared_adjacent_pair_witness :
  ¬ (questionsOf (default [] (sampleSequences !! 2)) !! 0
       = Some "What has a face and two hands but no arms or legs?"%string ∧
     questionsOf (default [] (sampleSequences !! 2)) !! (0 + 1)
       = Some "What has keys but can't open locks?"%string).
Proof.
  apply (no_shared_adjacent_pair 0 2 sampleWorld sampleSequences sampleEnd
           1 2 (default [] (sampleSequences !! 1))
           (default [] (sampleSequences !! 2)) 0 0);
    [exact sample_run | lia | vm_compute; reflexivity..].
Defined.

(** C3. In a successful run every group of [1..numGroups] has a sequence; it
    is as long as the pool, that is one more than the randomizable pool, and
    its last step carries the question of the last clue of the pool. *)
Theorem sequences_end_on_final_clue clues numGroups w m w' g :
  generateHuntSequences clues numGroups w = (inr m, w') →
  1 ≤ g ≤ numGroups →
  ∃ sequence finalClue lastStep,
    m !! g = Some sequence ∧
    length sequence = length (take (length (arrayAt w clues) - 1) (arrayAt w clues)) + 1 ∧
    length sequence = length (arrayAt w clues) ∧
    last (arrayAt w clues) = Some finalClue ∧
    last sequence = Some lastStep ∧
    stepQuestion lastStep = question finalClue.
Proof.
  intros Hrun Hg.
  apply run_success in Hrun
    as (Hlen & finalClue & ledger' & Hlast & [Hdom Hshape _ _ _]).
  destruct (proj2 (Hdom g)) as [s Hs]; [lia|].
  destruct (Hshape g s Hs) as (l & _ & Hl & ->).
  exists (candidateSequence g finalClue l), finalClue, (finalStep finalClue l).
  split; [done|].
  rewrite length_candidateSequence, length_take, last_candidateSequence.
  repeat split; try done; lia.
Qed.

Lemma sequences_end_on_final_clue_witness :
  ∃ sequence finalClue lastStep,
    sampleSequences !! 1 = Some sequence ∧
    length sequence = length (take (length samplePool - 1) samplePool) + 1 ∧
    length sequence = length samplePool ∧
    last samplePool = Some finalClue ∧
    last sequence = Some lastStep ∧
    stepQuestion lastStep = question finalClue.
Proof.
  apply (sequences_end_on_final_clue 0 2 sampleWorld sampleSequences
           sampleEnd 1);
    [exact sample_run | lia].
Defined.

(** ** Labels *)

Lemma append_empty_r s : s +:+ "" = s.
Proof.
  induction s as [|c s IH]; [done|].
  change (String c s +:+ "") with (String c (s +:+ "")). by rewrite IH.
Qed.

Lemma prefix_append s t : String.prefix s (s +:+ t) = true.
Proof.
  induction s as [|c s IH]; [by destruct t|].
  change (String c s +:+ t) with (String c (s +:+ t)).
  cbn [String.prefix]. destruct (Ascii.ascii_dec c c); [exact IH|done].
Qed.

Lemma includes_here s t : includes (s +:+ t) s = true.
Proof.
  destruct s as [|c s]; [by destruct t|].
  change (String c s +:+ t) with (String c (s +:+ t)).
  cbn [includes].
  change (String c (s +:+ t)) with (String c s +:+ t).
  by rewrite prefix_append.
Qed.

Lemma includes_append_r p s t : includes s t = true → includes (p +:+ s) t = true.
Proof.
  intros H. induction p as [|c p IH]; [done|].
  change (String c p +:+ s) with (String c (p +:+ s)).
  cbn [includes]. rewrite IH. apply orb_true_r.
Qed.

Lemma candidateSequence_lookup_inv groupNum finalClue l i step :
  candidateSequence groupNum finalClue l !! i = Some step →
  (∃ c, l !! i = Some c ∧ step = stepAt groupNum finalClue l i c) ∨
  (i = length l ∧ step = finalStep finalClue l).
Proof.
  unfold candidateSequence. rewrite lookup_app_Some, length_imap.
  intros [H|[Hi H]].
  - rewrite list_lookup_imap in H. destruct (l !! i) as [c|]; [|done].
    injection H as <-. left. by exists c.
  - right. destruct (i - length l) as [|k] eqn:Hk; [|done].
    injection H as <-. split; [lia|done].
Qed.

(** C9. Every sequence of a successful run is a chain: the steps are numbered
    from 1 on without a gap, the label of every step but the last contains
    the question of the step that follows it, and the label of the last step
    is the end marker. *)
Theorem chain_invariant clues numGroups w m w' g sequence :
  generateHuntSequences clues numGroups w = (inr m, w') →
  m !! g = Some sequence →
  (∀ i step, sequence !! i = Some step → clueNumber step = i + 1) ∧
  (∀ i step next,
     sequence !! i = Some step → sequence !! (i + 1) = Some next →
     includes (nextClue step) (stepQuestion next) = true) ∧
  (∃ lastStep,
     last sequence = Some lastStep ∧
     nextClue lastStep = pretty (length sequence + 1) +:+ ". The End" ∧
     includes (nextClue lastStep) "The End" = true).
Proof.
  intros Hrun Hs.
  apply run_success in Hrun
    as (_ & finalClue & ledger' & _ & [_ Hshape _ _ _]).
  destruct (Hshape g sequence Hs) as (l & _ & _ & ->).
  split; [|split].
  - intros i step Hi.
    apply candidateSequence_lookup_inv in Hi as [(c & _ & ->)|[-> ->]]; done.
  - intros i step next Hi Hnext.
    apply candidateSequence_lookup_inv in Hi as [(c & Hc & ->)|[-> ->]].
    + apply candidateSequence_lookup_inv in Hnext as [(d & Hd & ->)|[Hlen ->]].
      * cbn [stepAt nextClue stepQuestion]. rewrite Hd.
        do 5 apply includes_append_r.
        rewrite <- (append_empty_r (question d)) at 1.
        apply includes_here.
      * cbn [stepAt finalStep nextClue stepQuestion].
        rewrite (proj2 (lookup_ge_None l (i + 1))) by lia.
        do 5 apply includes_append_r.
        rewrite <- (append_empty_r (question finalClue)) at 1.
        apply includes_here.
    + rewrite lookup_ge_None_2 in Hnext; [done|].
      rewrite length_candidateSequence. lia.
  - exists (finalStep finalClue l).
    rewrite last_candidateSequence, length_candidateSequence.
    cbn [finalStep nextClue].
    replace (length l + 1 + 1) with (length l + 2) by lia.
    split; [done|]. split; [done|].
    apply includes_append_r. reflexivity.
Qed.

Lemma chain_invariant_witness :
  (∀ i step, default [] (sampleSequences !! 2) !! i = Some step →
             clueNumber step = i + 1) ∧
  (∀ i step next,
     default [] (sampleSequences !! 2) !! i = Some step →
     default [] (sampleSequences !! 2) !! (i + 1) = Some next →
     includes (nextClue step) (stepQuestion next) = true) ∧
  (∃ lastStep,
     last (default [] (sampleSequences !! 2)) = Some lastStep ∧
     nextClue lastStep
     = pretty (length (default [] (sampleSequences !! 2)) + 1) +:+ ". The End" ∧
     includes (nextClue lastStep) "The End" = true).
Proof.
  apply (chain_invariant 0 2 sampleWorld sampleSequences sampleEnd 2);
    [exact sample_run | vm_compute; reflexivity].
Defined.

(** ** Counting attempts in the log *)

Lemma attemptsMade_app k events events' :
  attemptsMade k (events ++ events')
  = attemptsMade k events + attemptsMade k events'.
Proof. unfold attemptsMade. by rewrite filter_app, length_app. Qed.

Lemma attemptsMade_attempts k g (l : list nat) :
  attemptsMade k (EvAttempt g <$> l) = if g =? k then length l else 0.
Proof.
  unfold attemptsMade. induction l as [|x l IH]; [by destruct (g =? k)|].
  rewrite fmap_cons, filter_cons. cbn [isAttemptOf].
  destruct (g =? k); simpl in *; by rewrite IH.
Qed.

Lemma attemptsMade_attemptEvents k g a :
  attemptsMade k (attemptEvents g 0 a) = if g =? k then a else 0.
Proof.
  unfold attemptEvents. rewrite attemptsMade_attempts, length_seq.
  by rewrite Nat.sub_0_r.
Qed.

Lemma attemptsMade_record k g rest :
  attemptsMade k (EvRecord g :: rest) = attemptsMade k rest.
Proof. unfold attemptsMade. by rewrite filter_cons. Qed.

Lemma groupsLog_earlier n g failed events k :
  groupsLog n g failed events → k < g →
  attemptsMade k events = 0 ∧ EvRecord k ∉ events.
Proof.
  revert g events. induction n as [|n IH]; intros g events H Hk.
  { destruct H as [_ ->]. split; [done|]. apply not_elem_of_nil. }
  assert (Hgk : (g =? k) = false) by (apply Nat.eqb_neq; lia).
  destruct H as [(a & rest & Ha & -> & Hrest)|[_ ->]].
  - destruct (IH (S g) rest Hrest) as [H0 Hnot]; [lia|].
    rewrite attemptsMade_app, attemptsMade_attemptEvents, Hgk,
      attemptsMade_record, H0.
    split; [done|].
    rewrite elem_of_app, elem_of_cons. intros [Hin|[Heq|Hin]].
    + unfold attemptEvents in Hin. apply list_elem_of_fmap in Hin.
      by destruct Hin as (? & ? & _).
    + injection Heq as ->. lia.
    + done.
  - rewrite attemptsMade_attemptEvents, Hgk. split; [done|].
    unfold attemptEvents. intros Hin. apply list_elem_of_fmap in Hin.
    by destruct Hin as (? & ? & _).
Qed.

Lemma groupsLog_bound n g failed events k :
  groupsLog n g failed events → attemptsMade k events ≤ maxAttempts.
Proof.
  revert g events. induction n as [|n IH]; intros g events H.
  { destruct H as [_ ->]. unfold attemptsMade. simpl. lia. }
  destruct H as [(a & rest & Ha & -> & Hrest)|[_ ->]].
  - rewrite attemptsMade_app, attemptsMade_attemptEvents, attemptsMade_record.
    destruct (g =? k) eqn:Hgk.
    + apply Nat.eqb_eq in Hgk as ->.
      destruct (groupsLog_earlier n (S k) failed rest k Hrest) as [-> _]; lia.
    + simpl. by eapply IH.
  - rewrite attemptsMade_attemptEvents. destruct (g =? k); lia.
Qed.

Lemma groupsLog_exhausted n g failed events k :
  groupsLog n g failed events →
  attemptsMade k events = maxAttempts → EvRecord k ∉ events →
  failed = Some k.
Proof.
  revert g events. induction n as [|n IH]; intros g events H Hmax Hnot.
  { destruct H as [_ ->]. done. }
  destruct H as [(a & rest & Ha & -> & Hrest)|[-> ->]].
  - rewrite attemptsMade_app, attemptsMade_attemptEvents, attemptsMade_record
      in Hmax.
    rewrite elem_of_app, elem_of_cons in Hnot.
    destruct (g =? k) eqn:Hgk.
    + apply Nat.eqb_eq in Hgk as ->. exfalso. apply Hnot. right. by left.
    + apply (IH (S g) rest); [done|done|]. intros Hin. apply Hnot. by do 2 right.
  - rewrite attemptsMade_attemptEvents in Hmax.
    destruct (g =? k) eqn:Hgk; [|done].
    by apply Nat.eqb_eq in Hgk as ->.
Qed.

(** C7. The retry loop of a group runs [attempts++] at most 100 times in a
    run, and when a group has made its 100 attempts and recorded nothing the
    run ends with the error naming that group and the 100 attempts; an error
    is no mapping. *)
Theorem retry_bound_is_fatal clues numGroups w r w' events g :
  generateHuntSequences clues numGroups w = (r, w') →
  log w' = log w ++ events →
  attemptsMade g events ≤ 100 ∧
  (attemptsMade g events = 100 → EvRecord g ∉ events →
   r = inl (Error ("Could not generate valid sequence for Group " +:+ pretty g
                     +:+ " after 100 attempts. "
                     +:+ "Try using more clues or fewer groups."))).
Proof.
  intros Hrun Hlog.
  destruct (decide (length (arrayAt w clues) < 2)) as [Hshort|Hlong].
  { rewrite generateHuntSequences_short in Hrun by done.
    injection Hrun as <- <-.
    assert (events = []) as ->.
    { apply (f_equal length) in Hlog. rewrite length_app in Hlog.
      destruct events; [done|]. simpl in Hlog. lia. }
    split; [unfold attemptsMade; simpl; lia|done]. }
  destruct (generateHuntSequences_spec clues numGroups w)
    as (finalClue & r0 & w1 & failed & events0 & _ & E & _ & Hlog0 & Hev & Hr);
    [lia|].
  rewrite E in Hrun. injection Hrun as -> ->.
  assert (events0 = events) as ->.
  { rewrite Hlog0 in Hlog. by apply app_inv_head in Hlog. }
  split; [by eapply (groupsLog_bound _ _ _ _ g) in Hev|].
  intros Hmax Hnot.
  rewrite (groupsLog_exhausted _ _ _ _ g Hev Hmax Hnot) in Hr.
  destruct r as [e|m]; [|done]. by rewrite Hr.
Qed.

Lemma retry_bound_is_fatal_witness :
  fst (generateHuntSequences 0 1 personFirstWorld)
  = inl (Error "Could not generate valid sequence for Group 1 after 100 attempts. Try using more clues or fewer groups.").
Proof.
  apply (proj2 (retry_bound_is_fatal 0 1 personFirstWorld
                  (fst (generateHuntSequences 0 1 personFirstWorld))
                  (snd (generateHuntSequences 0 1 personFirstWorld))
                  (log (snd (generateHuntSequences 0 1 personFirstWorld)))
                  1 (surjective_pairing _) eq_refl)).
  - vm_compute. reflexivity.
  - vm_compute. intros H. by repeat (apply elem_of_cons in H as [H|H];
      [discriminate H|]); apply elem_of_nil in H.
Defined.

(** C8. With fewer than two clues the call throws the error 'Need at least 2
    clues to generate a hunt' and leaves the world as it found it: no array
    was allocated, no random number drawn, and the log has neither an
    attempt nor a record of constraints. *)
Theorem insufficient_clues clues numGroups w :
  length (arrayAt w clues) < 2 →
  generateHuntSequences clues numGroups w
  = (inl (Error "Need at least 2 clues to generate a hunt"), w).
Proof. apply generateHuntSequences_short. Qed.

Lemma insufficient_clues_witness :
  generateHuntSequences 0 3
    (mkWorld [[mkClue "Where do you cook your meals?" "Kitchen" None]]
       [2; 7] [])
  = (inl (Error "Need at least 2 clues to generate a hunt"),
     mkWorld [[mkClue "Where do you cook your meals?" "Kitchen" None]]
       [2; 7] []).
Proof.
  apply (insufficient_clues 0 3
           (mkWorld [[mkClue "Where do you cook your meals?" "Kitchen" None]]
              [2; 7] [])).
  simpl. lia.
Defined.

(** Every array that exists when the call starts is the same when it ends,
    whether the call returns or throws. *)
Lemma generateHuntSequences_frame clues numGroups w :
  grows (length (heap w)) w (snd (generateHuntSequences clues numGroups w)).
Proof.
  destruct (decide (length (arrayAt w clues) < 2)) as [Hshort|Hlong].
  { rewrite generateHuntSequences_short by done. apply grows_refl. }
  destruct (generateHuntSequences_spec clues numGroups w)
    as (finalClue & r & w1 & failed & events & _ & E & G & _); [lia|].
  by rewrite E.
Qed.

(** C10. The array passed as [clues] holds the same records in the same
    order after the call, whether it returned or threw. *)
Theorem clues_not_mutated clues numGroups w :
  heap (snd (generateHuntSequences clues numGroups w)) !! clues
  = heap w !! clues.
Proof.
  destruct (decide (clues < length (heap w))) as [Hin|Hout].
  - by apply generateHuntSequences_frame.
  - rewrite generateHuntSequences_short; [done|].
    unfold arrayAt. rewrite lookup_ge_None_2 by lia. simpl. lia.
Qed.

(** ** The builder and the Place-first rule *)

(** The post-pass on a result of three entries or more that opens on a
    Place and has a Person in the second-to-last position: the search finds
    the opening Place at index 0, and the Person takes its position. *)
Lemma preferPlaceSecondToLast_opening result first c :
  3 ≤ length result →
  head result = Some first → isPlace first = true →
  result !! (length result - 2) = Some c → isPerson c = true →
  head (preferPlaceSecondToLast result) = Some c.
Proof.
  intros Hlen Hhead Hplace Hc Hperson. unfold preferPlaceSecondToLast.
  destruct result as [|x rest]; [done|]. injection Hhead as ->.
  replace (2 <=? length (first :: rest)) with true
    by (symmetry; apply Nat.leb_le; lia).
  rewrite Hc, Hperson.
  destruct (length (first :: rest) - 2) as [|k] eqn:Hk; [simpl in *; lia|].
  cbn [searchPlace lookup list_lookup]. rewrite Hplace.
  unfold swap. rewrite Hc. reflexivity.
Qed.

(** C4. On a pool of one Place and two Persons the builder returns, on every
    tape, a sequence that opens on a Person: the interleaving gives Place,
    Person, Person, the second-to-last entry is a Person, and the search for
    a Place to swap it with starts at index 0, so it takes the opening
    Place. *)
Theorem builder_opens_on_person randoms :
  (λ c, (isPerson c, isPlace c))
    <$> openingOf (createAlternatingSequence 0 (mkWorld [askewPool] randoms []))
  = Some (true, false).
Proof.
  destruct randoms as [|x t]; [vm_compute; reflexivity|].
  assert (Hx : x mod 2 = 0 ∨ x mod 2 = 1)
    by (pose proof (Nat.mod_upper_bound x 2); lia).
  cbv -[Nat.modulo].
  destruct Hx as [-> | ->]; vm_compute; reflexivity.
Qed.

(** ** The Place-first rule of the validator *)

(** C5, as stated, fails: a first entry whose category is the unrecognized
    string 'Landmark' is neither a Person nor a Place, and the builder files
    it with the untyped clues, yet rule 1b rejects it and the validator
    rejects the candidate, which it accepts once the category is removed. *)
Lemma unrecognized_first_rejected :
  let first := mkClue "Where is the old oak?" "Park" (Some "Landmark"%string) in
  isPerson first = false ∧ isPlace first = false ∧ isOther first = true ∧
  firstNotPlace first = true ∧
  violatesConstraints [first] ∅ ∅ = Some true ∧
  violatesConstraints [mkClue "Where is the old oak?" "Park" None] ∅ ∅
  = Some false.
Proof. vm_compute. by repeat split. Qed.

(** C5, amended. Rule 1b accepts a first entry exactly when its category is
    absent, empty, or 'place' up to case; with any other category, 'person'
    or not, it rejects, and then the validator rejects the candidate
    whatever the ledger and the rest of the candidate are. *)
Theorem place_first_rule first rest F P :
  (firstNotPlace first = false
   ↔ clueType first = None ∨ clueType first = Some ""%string
     ∨ isPlace first = true) ∧
  violatesConstraints (first :: rest) F P
  = Some (if firstNotPlace first then true
          else bool_decide (question first ∈ F)
               || existsb (λ pair, bool_decide (pair ∈ P))
                    (pairKeys (first :: rest))
               || negb (followsAlternatingTypes (first :: rest))).
Proof.
  split.
  - unfold firstNotPlace, isPlace, hasType.
    destruct (clueType first) as [s|]; [|by split; [left|]].
    destruct (String.eqb_spec s "") as [->|Hs].
    { split; [intros _; right; by left|done]. }
    destruct (String.eqb (toLowerCase s) "place"); simpl.
    + split; [intros _; by do 2 right|done].
    + split; [done|]. intros [H|[H|H]]; congruence.
  - unfold violatesConstraints.
    destruct (bool_decide (question first ∈ F)), (firstNotPlace first),
      (existsb (λ pair, bool_decide (pair ∈ P)) (pairKeys (first :: rest))),
      (followsAlternatingTypes (first :: rest)); done.
Qed.

(** ** A pool of two clues and a lone group *)

Lemma shuffleArray_short array w :
  length (arrayAt w array) ≤ 1 → shuffleArray array w = (inr tt, w).
Proof.
  intros Hlen. unfold shuffleArray, bind, readArray.
  by replace (length (arrayAt w array) - 1) with 0 by lia.
Qed.

Lemma followsAlternatingTypes_single c : followsAlternatingTypes [c] = true.
Proof.
  unfold followsAlternatingTypes. rewrite filter_cons.
  by destruct (decide (isTyped c)).
Qed.

Lemma violatesConstraints_single c :
  violatesConstraints [c] ∅ ∅ = Some (firstNotPlace c).
Proof.
  unfold violatesConstraints.
  rewrite bool_decide_eq_false_2 by apply not_elem_of_empty.
  rewrite followsAlternatingTypes_single. by destruct (firstNotPlace c).
Qed.

Lemma chooseShuffledClues_single randomizableClues ledger w other b :
  randomizableClues < length (heap w) →
  arrayAt w randomizableClues = [other] →
  violatesConstraints [other] (usedFirstClues ledger)
    (usedConsecutivePairs ledger) = Some b →
  ∃ copy w',
    chooseShuffledClues randomizableClues ledger w
    = (inr (if b then None else Some copy), w') ∧
    arrayAt w' copy = [other].
Proof.
  intros Hrc Hpool Hb. unfold chooseShuffledClues.
  destruct (createAlternatingSequence_spec randomizableClues w)
    as (o & w1 & E1 & G1 & _ & Hshort & _).
  step E1.
  rewrite Hshort by (rewrite Hpool; simpl; lia).
  unfold bind at 1, ret at 1. unfold bind at 1, readArray.
  rewrite (grows_arrayAt _ _ _ _ G1), Hpool by done.
  destruct (newArray_spec [other] w1) as (w2 & E2 & _ & _ & A2 & _).
  step E2.
  rewrite (bind_ok _ _ _ _ _ (shuffleArray_short _ w2 ltac:(by rewrite A2))).
  unfold violatesAt, bind, readArray. rewrite A2, Hb. cbn [liftOption ret].
  exists (length (heap w1)), w2. by destruct b.
Qed.

Lemma whileSearching_single fuel groupNum randomizableClues finalClue
    attempts ledger w other :
  randomizableClues < length (heap w) →
  arrayAt w randomizableClues = [other] →
  attempts < maxAttempts →
  violatesConstraints [other] (usedFirstClues ledger)
    (usedConsecutivePairs ledger) = Some false →
  ∃ ledger' w',
    whileSearching (S fuel) groupNum randomizableClues finalClue attempts
      ledger w
    = (inr (Some (candidateSequence groupNum finalClue [other]),
            attempts + 1, ledger'), w').
Proof.
  intros Hrc Hpool Hlt Hv. cbn [whileSearching].
  apply Nat.ltb_lt in Hlt. rewrite Hlt.
  unfold bind at 1, emit.
  destruct (chooseShuffledClues_single randomizableClues ledger
              (mkWorld (heap w) (tape w)
                 (log w ++ [EvAttempt groupNum (attempts + 1)]))
              other false Hrc Hpool Hv)
    as (copy & w2 & E2 & A2).
  rewrite (bind_ok _ _ _ _ _ E2).
  unfold bind at 1, readArray. rewrite A2.
  unfold bind at 1, emit. unfold bind, liftOption, ret.
  cbn [recordConstraints]. eauto.
Qed.

Lemma generateHuntSequences_two clues numGroups w other finalClue :
  arrayAt w clues = [other; finalClue] →
  generateHuntSequences clues numGroups w
  = bind (newArray [other])
      (λ randomizableClues,
         forGroups numGroups 1 randomizableClues finalClue ∅ (mkLedger ∅ ∅)) w.
Proof.
  intros H. unfold generateHuntSequences, bind at 1, readArray.
  by rewrite H.
Qed.

Lemma whileSearching_single_rejected fuel groupNum randomizableClues finalClue
    attempts ledger w other :
  randomizableClues < length (heap w) →
  arrayAt w randomizableClues = [other] →
  violatesConstraints [other] (usedFirstClues ledger)
    (usedConsecutivePairs ledger) = Some true →
  ∃ att w',
    whileSearching fuel groupNum randomizableClues finalClue attempts ledger w
    = (inr (None, att, ledger), w').
Proof.
  revert attempts w. induction fuel as [|fuel IH]; intros attempts w Hrc Hpool Hv.
  { by exists attempts, w. }
  cbn [whileSearching]. destruct (attempts <? maxAttempts); [|by exists attempts, w].
  unfold bind at 1, emit.
  set (w0 := mkWorld (heap w) (tape w)
               (log w ++ [EvAttempt groupNum (attempts + 1)])).
  destruct (chooseShuffledClues_single randomizableClues ledger w0 other true
              Hrc Hpool Hv) as (copy & w2 & E2 & _).
  destruct (chooseShuffledClues_spec randomizableClues ledger w0)
    as (o & w2' & E2' & G & _);
    [exact Hrc | change (arrayAt w randomizableClues ≠ []); by rewrite Hpool |].
  rewrite E2 in E2'. injection E2' as <- <-.
  rewrite (bind_ok _ _ _ _ _ E2).
  apply IH.
  - destruct G as [Hle _]. subst w0. cbn [heap] in Hle. lia.
  - rewrite (grows_arrayAt _ _ _ _ G) by exact Hrc. exact Hpool.
  - done.
Qed.

(** With any other clue before the final clue the lone group fails, on
    every tape. *)
Lemma lone_group_rejected clues w other finalClue :
  heap w !! clues = Some [other; finalClue] →
  firstNotPlace other = true →
  fst (generateHuntSequences clues 1 w) = inl (Error (exhaustedMessage 1)).
Proof.
  intros Hclues Hfirst.
  assert (Hpool : arrayAt w clues = [other; finalClue])
    by (unfold arrayAt; by rewrite Hclues).
  rewrite (generateHuntSequences_two _ _ _ _ _ Hpool).
  destruct (newArray_spec [other] w) as (w1 & E1 & _ & L1 & A1 & _).
  step E1. cbn [forGroups].
  destruct (whileSearching_single_rejected maxAttempts 1 (length (heap w))
              finalClue 0 (mkLedger ∅ ∅) w1 other)
    as (att & w2 & E2).
  { lia. }
  { exact A1. }
  { cbn [usedFirstClues usedConsecutivePairs].
    by rewrite violatesConstraints_single, Hfirst. }
  by step E2.
Qed.

(** C6, as stated, fails: with a Person before the final clue the lone
    group is rejected a hundred times and the run throws. *)
Lemma lone_group_can_fail :
  length personFirstPool = 2 ∧
  fst (generateHuntSequences 0 1 (mkWorld [personFirstPool] [0; 0] []))
  = inl (Error "Could not generate valid sequence for Group 1 after 100 attempts. Try using more clues or fewer groups.").
Proof. split; [reflexivity|]. vm_compute. reflexivity. Qed.

(** C6, amended. When the clue before the final clue passes rule 1b (its
    category is absent, empty or 'place' up to case), a run with one group
    returns the same two steps on every tape. *)
Theorem lone_group_single_ordering clues w other finalClue :
  heap w !! clues = Some [other; finalClue] →
  firstNotPlace other = false →
  fst (generateHuntSequences clues 1 w)
  = inr {[ 1 :=
            [ mkStep 1 (question other)
                ("Hide this at/with: " +:+ answer other)
                ("Group 1 Clue 2. " +:+ question finalClue);
              mkStep 2 (question finalClue)
                ("Hide this at/with: " +:+ answer finalClue)
                "3. The End" ] ]}.
Proof.
  intros Hclues Hfirst.
  assert (Hpool : arrayAt w clues = [other; finalClue])
    by (unfold arrayAt; by rewrite Hclues).
  rewrite (generateHuntSequences_two _ _ _ _ _ Hpool).
  destruct (newArray_spec [other] w) as (w1 & E1 & _ & L1 & A1 & _).
  step E1.
  cbn [forGroups]. change maxAttempts with (S 99) at 1.
  destruct (whileSearching_single 99 1 (length (heap w)) finalClue 0
              (mkLedger ∅ ∅) w1 other)
    as (ledger' & w2 & E2).
  { lia. }
  { exact A1. }
  { unfold maxAttempts. lia. }
  { cbn [usedFirstClues usedConsecutivePairs].
    by rewrite violatesConstraints_single, Hfirst. }
  rewrite (bind_ok _ _ _ _ _ E2). cbn [ret fst].
  rewrite insert_empty. reflexivity.
Qed.

Lemma lone_group_single_ordering_witness :
  fst (generateHuntSequences 0 1
         (mkWorld
            [[mkClue "Where do cars sleep at night?" "Garage"
                (Some "PLACE"%string);
              mkClue "Who created this scavenger hunt?" "Kevin"
                (Some "Person"%string)]]
            [5; 3] []))
  = inr {[ 1 :=
            [ mkStep 1 "Where do cars sleep at night?"
                ("Hide this at/with: " +:+ "Garage")
                ("Group 1 Clue 2. " +:+ "Who created this scavenger hunt?");
              mkStep 2 "Who created this scavenger hunt?"
                ("Hide this at/with: " +:+ "Kevin")
                "3. The End" ] ]}.
Proof.
  apply (lone_group_single_ordering 0
           (mkWorld
              [[mkClue "Where do cars sleep at night?" "Garage"
                  (Some "PLACE"%string);
                mkClue "Who created this scavenger hunt?" "Kevin"
                  (Some "Person"%string)]]
              [5; 3] [])
           (mkClue "Where do cars sleep at night?" "Garage"
              (Some "PLACE"%string))
           (mkClue "Who created this scavenger hunt?" "Kevin"
              (Some "Person"%string)));
    [reflexivity | vm_compute; reflexivity].
Defined.

(** * Further properties of the script *)

(** ** Permutations *)

Section Permutations.

Implicit Types (l array : list Clue) (c x y : Clue).

Lemma insert_swap_out l j x y :
  l !! j = Some y → y :: <[j := x]> l ≡ₚ x :: l.
Proof.
  revert j. induction l as [|a l IH]; intros [|j] Hj; try done.
  - injection Hj as ->. simpl. apply perm_swap.
  - simpl. rewrite (perm_swap a y), (IH j Hj). apply perm_swap.
Qed.

Lemma swap_perm i j array : swap i j array ≡ₚ array.
Proof.
  unfold swap.
  destruct (array !! i) as [x|] eqn:Hi; [|done].
  destruct (array !! j) as [y|] eqn:Hj; [|done].
  revert i j Hi Hj. induction array as [|a l IH]; intros [|i] [|j] Hi Hj;
    try done; simpl in *.
  - injection Hi as ->. injection Hj as ->. done.
  - injection Hi as ->. by apply insert_swap_out.
  - injection Hj as ->. by apply insert_swap_out.
  - by rewrite (IH i j).
Qed.

Lemma shuffled_perm i draws array : shuffled i draws array ≡ₚ array.
Proof.
  revert draws array. induction i as [|i IH]; intros draws array; [done|].
  cbn [shuffled]. destruct draws; rewrite IH; apply swap_perm.
Qed.

Lemma partition_perm l :
  filter (λ c, isPlace c) l ++ filter (λ c, isPerson c) l
    ++ filter (λ c, isOther c) l ≡ₚ l.
Proof.
  induction l as [|c l IH]; [done|].
  rewrite !filter_cons, isOther_spec.
  pose proof (isPerson_isPlace c) as Hex.
  destruct (isPerson c), (isPlace c); simpl.
  - exfalso. by apply Hex.
  - rewrite <- Permutation_middle. by rewrite IH.
  - by rewrite IH.
  - rewrite <- !Permutation_middle. by rewrite IH.
Qed.

Lemma alternate_perm xs ys : alternate xs ys ≡ₚ xs ++ ys.
Proof.
  revert ys. induction xs as [|x xs IH]; intros ys; [done|].
  destruct ys as [|y ys]; simpl.
  - by rewrite app_nil_r.
  - rewrite IH. by rewrite <- Permutation_middle.
Qed.

Lemma preferPlaceSecondToLast_perm l : preferPlaceSecondToLast l ≡ₚ l.
Proof.
  unfold preferPlaceSecondToLast.
  destruct (2 <=? length l); [|done].
  destruct (l !! (length l - 2)) as [c|]; [|done].
  destruct (isPerson c); [|done].
  destruct (searchPlace _ _ _); [|done].
  apply swap_perm.
Qed.

Lemma splice_perm pos c l : splice pos c l ≡ₚ c :: l.
Proof.
  unfold splice. rewrite <- Permutation_middle.
  by rewrite take_drop.
Qed.

End Permutations.

(** ** The shuffle as a function of the tape *)

Lemma shuffleFrom_content array i w :
  array < length (heap w) →
  ∃ w', shuffleFrom array i w = (inr tt, w') ∧
        arrayAt w' array = shuffled i (tape w) (arrayAt w array) ∧
        tape w' = drop i (tape w).
Proof.
  revert w. induction i as [|i IH]; intros w Ha.
  { exists w. by rewrite drop_0. }
  cbn [shuffleFrom shuffled]. unfold bind at 1, floorRandomTimes.
  replace (S i + 1 =? 0) with false by (symmetry; apply Nat.eqb_neq; lia).
  destruct (lookup_lt_is_Some_2 (heap w) array Ha) as [l Hl].
  destruct (tape w) as [|x rest] eqn:Ht; unfold bind at 1, modifyArray.
  - destruct (IH (mkWorld (alter (swap (S i) 0) array (heap w)) (tape w) (log w)))
      as (w' & E & Hc & Htape).
    { cbn [heap]. by rewrite length_alter. }
    exists w'. split; [exact E|].
    rewrite Hc, Htape, arrayAt_alter, Hl. cbn [tape]. rewrite Ht.
    unfold arrayAt. rewrite Hl. simpl. by rewrite drop_nil.
  - destruct (IH (mkWorld (alter (swap (S i) (x mod (S i + 1))) array (heap w))
                    rest (log w)))
      as (w' & E & Hc & Htape).
    { cbn [heap]. by rewrite length_alter. }
    exists w'. split; [exact E|].
    rewrite Hc, Htape, arrayAt_alter, Hl. cbn [tape].
    unfold arrayAt. by rewrite Hl.
Qed.

Lemma shuffleArray_content array w :
  ∃ w', shuffleArray array w = (inr tt, w') ∧
        arrayAt w' array
        = shuffled (length (arrayAt w array) - 1) (tape w) (arrayAt w array) ∧
        tape w' = drop (length (arrayAt w array) - 1) (tape w) ∧
        inPlace array w w'.
Proof.
  destruct (shuffleArray_spec array w) as (w' & E & Hin).
  exists w'. split; [exact E|].
  destruct (decide (array < length (heap w))) as [Ha|Ha].
  - unfold shuffleArray, bind at 1, readArray in E.
    destruct (shuffleFrom_content array (length (arrayAt w array) - 1) w Ha)
      as (w1 & E1 & Hc & Ht).
    rewrite E1 in E. injection E as <-. done.
  - assert (Hempty : arrayAt w array = []).
    { unfold arrayAt. by rewrite lookup_ge_None_2 by lia. }
    unfold shuffleArray, bind at 1, readArray in E. rewrite Hempty in E.
    injection E as <-. rewrite Hempty. done.
Qed.

(** X1. [shuffleArray] never throws and leaves in its array a permutation
    of what the array held; no other array changes and none is created. *)
Theorem shuffleArray_permutes array w :
  ∃ w', shuffleArray array w = (inr tt, w') ∧
        arrayAt w' array ≡ₚ arrayAt w array ∧
        length (heap w') = length (heap w) ∧
        ∀ b, b ≠ array → heap w' !! b = heap w !! b.
Proof.
  destruct (shuffleArray_content array w) as (w' & E & Hc & _ & Hl & Hne & _).
  exists w'. split; [exact E|]. split; [|done].
  rewrite Hc. apply shuffled_perm.
Qed.

(** X2. [shuffleArray] calls [Math.random] once for every index from the
    last down to 1: the tape loses its first [length - 1] draws, none when
    the array has at most one entry. *)
Theorem shuffleArray_draws array w :
  tape (snd (shuffleArray array w))
  = drop (length (arrayAt w array) - 1) (tape w).
Proof.
  destruct (shuffleArray_content array w) as (w' & E & _ & Ht & _).
  by rewrite E.
Qed.

(** Every arrangement of the first [i + 1] entries is the outcome of the
    swaps from [i] down on some tape. *)
Lemma shuffled_reaches i (l t : list Clue) :
  i < length l → length t = length l →
  take (S i) t ≡ₚ take (S i) l → drop (S i) t = drop (S i) l →
  ∃ draws, length draws = i ∧ shuffled i draws l = t.
Proof.
  revert l t. induction i as [|i IH]; intros l t Hi Hlen Hperm Hdrop.
  { exists []. split; [done|]. simpl.
    destruct l as [|a l]; [simpl in Hi; lia|].
    destruct t as [|b t]; [done|].
    simpl in Hperm, Hdrop. rewrite !take_0 in Hperm. rewrite !drop_0 in Hdrop.
    apply Permutation_singleton_inj in Hperm. congruence. }
  destruct (lookup_lt_is_Some_2 t (S i)) as [y Hy]; [lia|].
  destruct (lookup_lt_is_Some_2 l (S i)) as [z Hz]; [lia|].
  assert (Hin : y ∈ take (S (S i)) l).
  { rewrite <- Hperm. apply list_elem_of_lookup. exists (S i).
    apply lookup_take_Some. split; [done|lia]. }
  apply list_elem_of_lookup in Hin as [j Hj].
  apply lookup_take_Some in Hj as [Hj Hjlt].
  set (l' := swap (S i) j l).
  assert (Hl' : l' = <[j := z]> (<[S i := y]> l)).
  { subst l'. unfold swap. by rewrite Hz, Hj. }
  assert (Hlen' : length l' = length l) by apply length_swap.
  assert (Hy' : l' !! S i = Some y).
  { rewrite Hl'. destruct (decide (j = S i)) as [->|Hne].
    - rewrite list_lookup_insert_eq by (rewrite length_insert; lia).
      congruence.
    - rewrite list_lookup_insert_ne by done.
      by rewrite list_lookup_insert_eq by lia. }
  assert (Hdrop' : drop (S (S i)) l' = drop (S (S i)) l).
  { rewrite Hl'. by rewrite !drop_insert_lt by lia. }
  assert (Htake' : take (S (S i)) l' ≡ₚ take (S (S i)) l).
  { rewrite Hl'. rewrite !take_insert_lt by lia.
    transitivity (swap (S i) j (take (S (S i)) l)); [|apply swap_perm].
    unfold swap.
    rewrite (proj2 (lookup_take_Some l (S (S i)) (S i) z)) by (split; [done|lia]).
    by rewrite (proj2 (lookup_take_Some l (S (S i)) j y)) by done. }
  destruct (IH l' t) as (draws & Hd & Hs).
  - lia.
  - lia.
  - rewrite (take_S_r l' (S i) y Hy') in Htake'.
    rewrite <- Hperm, (take_S_r t (S i) y Hy) in Htake'.
    symmetry. by eapply Permutation_app_inv_r.
  - rewrite (drop_S l' y (S i) Hy'), (drop_S t y (S i) Hy). congruence.
  - exists (j :: draws). split; [simpl; lia|].
    cbn [shuffled]. rewrite Nat.mod_small by lia. exact Hs.
Qed.

(** X3. Every ordering of the contents of an array is an outcome of
    [shuffleArray]: some tape of [length - 1] draws leaves it in the
    array. *)
Theorem shuffleArray_reaches_every_ordering array w (t : list Clue) :
  t ≡ₚ arrayAt w array →
  ∃ draws,
    length draws = length t - 1 ∧
    arrayAt (snd (shuffleArray array (mkWorld (heap w) draws (log w)))) array
    = t.
Proof.
  intros Hperm. pose proof (Permutation_length Hperm) as Hlen.
  assert (Hdraws : ∃ draws, length draws = length t - 1 ∧
            shuffled (length (arrayAt w array) - 1) draws (arrayAt w array) = t).
  { destruct (arrayAt w array) as [|a l] eqn:Hl.
    - apply Permutation_nil_r in Hperm as ->. by exists [].
    - destruct (shuffled_reaches (length (a :: l) - 1) (a :: l) t)
        as (draws & Hd & Hs).
      + simpl. lia.
      + done.
      + replace (S (length (a :: l) - 1)) with (length (a :: l)) by (simpl; lia).
        rewrite <- Hlen at 1. by rewrite !firstn_all.
      + replace (S (length (a :: l) - 1)) with (length (a :: l)) by (simpl; lia).
        rewrite <- Hlen at 1. by rewrite !drop_all.
      + exists draws. split; [|done]. rewrite Hd, Hlen. done. }
  destruct Hdraws as (draws & Hd & Hs). exists draws. split; [done|].
  destruct (shuffleArray_content array (mkWorld (heap w) draws (log w)))
    as (w' & E & Hc & _).
  rewrite E. cbn [snd]. rewrite Hc. exact Hs.
Qed.

Lemma shuffleArray_reaches_every_ordering_witness :
  ∃ draws,
    length draws = 2 ∧
    arrayAt (snd (shuffleArray 0 (mkWorld [askewPool] draws []))) 0
    = reverse askewPool.
Proof.
  apply (shuffleArray_reaches_every_ordering 0 (mkWorld [askewPool] [] [])
           (reverse askewPool)).
  apply reverse_Permutation.
Defined.

(** ** The builder as a function of its shuffled partitions *)

Lemma alternate_nil_r xs : alternate xs [] = xs.
Proof. by destruct xs. Qed.

Lemma alternate_cons x xs ys : alternate (x :: xs) ys = x :: alternate ys xs.
Proof.
  revert x ys. induction xs as [|x' xs IH]; intros x ys.
  - destruct ys as [|y ys]; [done|]. simpl. by destruct ys.
  - destruct ys as [|y ys]; [done|].
    change (alternate (x :: x' :: xs) (y :: ys))
      with (x :: y :: alternate (x' :: xs) ys).
    change (alternate (y :: ys) (x' :: xs)) with (y :: x' :: alternate ys xs).
    by rewrite IH.
Qed.

Lemma interleave_alternate persons places n t pi li result :
  (length persons - pi) + (length places - li) ≤ n →
  interleave persons places n t pi li result
  = result ++ alternateFrom t (drop li places) (drop pi persons).
Proof.
  revert t pi li result. induction n as [|n IH]; intros t pi li result Hn.
  { rewrite !drop_ge by lia. simpl. destruct t; by rewrite app_nil_r. }
  cbn [interleave].
  destruct (places !! li) as [c|] eqn:Hl, (persons !! pi) as [d|] eqn:Hp.
  - pose proof (lookup_lt_Some _ _ _ Hl). pose proof (lookup_lt_Some _ _ _ Hp).
    destruct t; rewrite IH by lia; rewrite <- app_assoc; cbn [alternateFrom].
    + by rewrite (drop_S _ _ _ Hp), alternate_cons.
    + by rewrite (drop_S _ _ _ Hl), alternate_cons.
  - pose proof (lookup_lt_Some _ _ _ Hl). apply lookup_ge_None in Hp.
    rewrite (drop_S _ _ _ Hl), (drop_ge persons pi) by lia.
    destruct t; rewrite IH by lia; rewrite <- app_assoc; cbn [alternateFrom];
      by rewrite (drop_ge persons pi) by lia.
  - pose proof (lookup_lt_Some _ _ _ Hp). apply lookup_ge_None in Hl.
    rewrite (drop_S _ _ _ Hp), (drop_ge places li) by lia.
    destruct t; rewrite IH by lia; rewrite <- app_assoc; cbn [alternateFrom];
      by rewrite (drop_ge places li) by lia.
  - apply lookup_ge_None in Hl. apply lookup_ge_None in Hp.
    rewrite IH by lia. by destruct t.
Qed.

Lemma head_splice pos c l :
  l ≠ [] → head (splice (pos + 1) c l) = head l.
Proof.
  intros Hl. destruct l as [|a l]; [done|].
  unfold splice. by replace (pos + 1) with (S pos) by lia.
Qed.

Lemma insertOthers_content result others w :
  result < length (heap w) →
  ∃ w', insertOthers result others w = (inr tt, w') ∧
        arrayAt w' result ≡ₚ arrayAt w result ++ others ∧
        (arrayAt w result ≠ [] →
         head (arrayAt w' result) = head (arrayAt w result)) ∧
        (others = [] → w' = w) ∧
        grows result w w'.
Proof.
  revert w. induction others as [|clue rest IH]; intros w Hr.
  { exists w. rewrite app_nil_r. repeat split; try done. }
  cbn [insertOthers]. unfold bind at 1, readArray.
  destruct (floorRandomTimes_spec (length (arrayAt w result)) w)
    as (x & w1 & Hx & Hh & Hlg).
  rewrite (bind_ok _ _ _ _ _ Hx).
  assert (Hr1 : result < length (heap w1)) by by rewrite Hh.
  destruct (modifyArray_spec result (splice (x + 1) clue) w1 Hr1)
    as (w2 & Hm & Hg2 & Hl2 & Ha2 & _).
  rewrite (bind_ok _ _ _ _ _ Hm).
  destruct (IH w2) as (w' & Heq & Hperm & Hhead & _ & Hg); [lia|].
  assert (Ha1 : arrayAt w1 result = arrayAt w result)
    by (unfold arrayAt; by rewrite Hh).
  rewrite Ha1 in Ha2.
  exists w'. split; [exact Heq|]. split; [|split; [|split; [done|]]].
  - rewrite Hperm, Ha2, splice_perm. by rewrite <- Permutation_middle.
  - intros Hne. rewrite Hhead, Ha2.
    + by apply head_splice.
    + rewrite Ha2. unfold splice. by destruct (take (x + 1) (arrayAt w result)).
  - eapply grows_trans; [|exact Hg]. eapply grows_trans; [|exact Hg2].
    split; [by rewrite Hh|]. intros b _. by rewrite Hh.
Qed.

Lemma createAlternatingSequence_content clues w :
  ∃ o w',
    createAlternatingSequence clues w = (inr o, w') ∧
    grows (length (heap w)) w w' ∧
    match o with
    | None =>
        (length (filter (λ c, isPlace c) (arrayAt w clues)) = 0 ∨
         length (filter (λ c, isPerson c) (arrayAt w clues))
           + length (filter (λ c, isPlace c) (arrayAt w clues)) < 2) ∧
        tape w' = tape w
    | Some a =>
        length (filter (λ c, isPlace c) (arrayAt w clues)) ≠ 0 ∧
        2 ≤ length (filter (λ c, isPerson c) (arrayAt w clues))
              + length (filter (λ c, isPlace c) (arrayAt w clues)) ∧
        length (heap w) ≤ a ∧
        ∃ persons places,
          persons ≡ₚ filter (λ c, isPerson c) (arrayAt w clues) ∧
          places ≡ₚ filter (λ c, isPlace c) (arrayAt w clues) ∧
          arrayAt w' a ≡ₚ arrayAt w clues ∧
          head (arrayAt w' a)
          = head (preferPlaceSecondToLast (alternate places persons)) ∧
          (filter (λ c, isOther c) (arrayAt w clues) = [] →
           arrayAt w' a = preferPlaceSecondToLast (alternate places persons))
    end.
Proof.
  unfold createAlternatingSequence. unfold bind at 1, readArray.
  set (cl := arrayAt w clues).
  destruct (newArray_spec (filter (λ c, isPerson c) cl) w)
    as (w1 & E1 & G1 & L1 & A1 & _ & T1).
  step E1.
  destruct (newArray_spec (filter (λ c, isPlace c) cl) w1)
    as (w2 & E2 & G2 & L2 & A2 & _ & T2).
  step E2.
  destruct (newArray_spec (filter (λ c, isOther c) cl) w2)
    as (w3 & E3 & G3 & L3 & A3 & _ & T3).
  step E3.
  unfold bind at 1, readArray. unfold bind at 1, readArray.
  set (personClues := length (heap w)) in *.
  set (placeClues := length (heap w1)) in *.
  set (otherClues := length (heap w2)) in *.
  assert (G03 : grows personClues w w3).
  { eapply grows_trans; [exact G1|]. eapply grows_trans.
    - eapply grows_mono; [|exact G2]. lia.
    - eapply grows_mono; [|exact G3]. lia. }
  assert (P3 : arrayAt w3 personClues = filter (λ c, isPerson c) cl).
  { rewrite <- A1. transitivity (arrayAt w2 personClues).
    - eapply grows_arrayAt; [exact G3|lia].
    - eapply grows_arrayAt; [exact G2|lia]. }
  assert (Q3 : arrayAt w3 placeClues = filter (λ c, isPlace c) cl).
  { rewrite <- A2. eapply grows_arrayAt; [exact G3|lia]. }
  rewrite P3, Q3.
  destruct (length (filter (λ c, isPlace c) cl) =? 0) eqn:Hz.
  { exists None, w3. split; [done|]. split; [done|].
    apply Nat.eqb_eq in Hz. split; [by left|congruence]. }
  destruct (length (filter (λ c, isPerson c) cl) +
            length (filter (λ c, isPlace c) cl) <? 2) eqn:Htwo.
  { exists None, w3. split; [done|]. split; [done|].
    apply Nat.ltb_lt in Htwo. split; [by right|congruence]. }
  apply Nat.eqb_neq in Hz. apply Nat.ltb_ge in Htwo.
  destruct (shuffleArray_content personClues w3) as (w4 & E4 & C4 & _ & S4).
  step E4.
  destruct (shuffleArray_content placeClues w4) as (w5 & E5 & C5 & _ & S5).
  step E5.
  destruct (shuffleArray_content otherClues w5) as (w6 & E6 & C6 & _ & S6).
  step E6.
  destruct (newArray_spec [] w6) as (w7 & E7 & G7 & L7 & A7 & _).
  step E7.
  unfold bind at 1, readArray. unfold bind at 1, readArray.
  set (result := length (heap w6)) in *.
  pose proof S4 as (L4 & _ & _ & _).
  pose proof S5 as (L5 & _ & _ & _).
  pose proof S6 as (L6 & _ & _ & _).
  assert (Hp7 : arrayAt w7 personClues ≡ₚ filter (λ c, isPerson c) cl).
  { rewrite (grows_arrayAt _ _ _ _ G7) by lia.
    rewrite (inPlace_arrayAt _ _ _ _ S6) by lia.
    rewrite (inPlace_arrayAt _ _ _ _ S5) by lia.
    rewrite C4, P3. apply shuffled_perm. }
  assert (Hq7 : arrayAt w7 placeClues ≡ₚ filter (λ c, isPlace c) cl).
  { rewrite (grows_arrayAt _ _ _ _ G7) by lia.
    rewrite (inPlace_arrayAt _ _ _ _ S6) by lia.
    rewrite C5.
    rewrite (inPlace_arrayAt _ _ _ _ S4) by lia.
    rewrite Q3. apply shuffled_perm. }
  assert (Ho7 : arrayAt w7 otherClues ≡ₚ filter (λ c, isOther c) cl).
  { rewrite (grows_arrayAt _ _ _ _ G7) by lia.
    rewrite C6.
    rewrite (inPlace_arrayAt _ _ _ _ S5) by lia.
    rewrite (inPlace_arrayAt _ _ _ _ S4) by lia.
    rewrite A3. apply shuffled_perm. }
  set (persons := arrayAt w7 personClues) in *.
  set (places := arrayAt w7 placeClues) in *.
  destruct (modifyArray_spec result
              (interleave persons places (length persons + length places)
                 place 0 0) w7)
    as (w8 & E8 & G8 & L8 & A8 & _); [lia|].
  step E8.
  destruct (modifyArray_spec result preferPlaceSecondToLast w8)
    as (w9 & E9 & G9 & L9 & A9 & _); [lia|].
  step E9.
  unfold bind at 1, readArray.
  destruct (insertOthers_content result (arrayAt w9 otherClues) w9)
    as (w10 & E10 & P10 & H10 & N10 & G10); [lia|].
  step E10.
  assert (Hbase : arrayAt w9 result
                  = preferPlaceSecondToLast (alternate places persons)).
  { rewrite A9, A8, A7, interleave_alternate by lia.
    by rewrite !drop_0. }
  assert (Hothers : arrayAt w9 otherClues = arrayAt w7 otherClues).
  { rewrite (grows_arrayAt _ _ _ _ G9) by lia.
    by rewrite (grows_arrayAt _ _ _ _ G8) by lia. }
  assert (Hne : arrayAt w9 result ≠ []).
  { rewrite Hbase. intros Hnil.
    assert (Hlen : length (preferPlaceSecondToLast (alternate places persons)) = 0)
      by by rewrite Hnil.
    rewrite length_preferPlaceSecondToLast in Hlen.
    rewrite (Permutation_length (alternate_perm _ _)), length_app in Hlen.
    rewrite (Permutation_length Hq7) in Hlen. lia. }
  exists (Some result), w10. split; [done|]. split.
  { eapply grows_trans; [exact G03|].
    eapply grows_trans; [eapply inPlace_grows; [|exact S4]; lia|].
    eapply grows_trans; [eapply inPlace_grows; [|exact S5]; lia|].
    eapply grows_trans; [eapply inPlace_grows; [|exact S6]; lia|].
    eapply grows_trans; [eapply grows_mono; [|exact G7]; lia|].
    eapply grows_trans; [eapply grows_mono; [|exact G8]; lia|].
    eapply grows_trans; [eapply grows_mono; [|exact G9]; lia|].
    eapply grows_mono; [|exact G10]; lia. }
  split; [done|]. split; [done|]. split; [lia|].
  exists persons, places. split; [done|]. split; [done|]. split; [|split].
  - rewrite P10, Hbase, Hothers, preferPlaceSecondToLast_perm, alternate_perm.
    rewrite Hq7, Hp7, Ho7, <- app_assoc. apply partition_perm.
  - rewrite H10 by done. by rewrite Hbase.
  - intros Hnone. rewrite Hnone in Ho7.
    apply Permutation_nil_r in Ho7. rewrite <- Hothers in Ho7.
    rewrite (N10 Ho7). exact Hbase.
Qed.

(** ** Categories along the alternation *)

Section Categories.

Implicit Types (places persons : list Clue).

Lemma alternate_second_to_last places persons :
  Forall (λ c, isPlace c = true) places →
  Forall (λ c, isPerson c = true) persons →
  2 ≤ length places + length persons →
  ∃ c, alternate places persons !! (length places + length persons - 2)
       = Some c ∧
       if decide (personBeforeLast places persons)
       then isPerson c = true else isPlace c = true.
Proof.
  unfold personBeforeLast.
  revert persons. induction places as [|x xs IH]; intros persons Hpl Hpe Hlen.
  { simpl in *.
    destruct (lookup_lt_is_Some_2 persons (length persons - 2)) as [c Hc];
      [lia|].
    exists c. split; [done|]. rewrite decide_True by lia.
    by apply (Forall_lookup_1 _ _ _ _ Hpe Hc). }
  destruct persons as [|y ys].
  { rewrite alternate_nil_r. simpl in Hlen.
    destruct (lookup_lt_is_Some_2 (x :: xs) (length (x :: xs) + 0 - 2))
      as [c Hc]; [simpl; lia|].
    exists c. split; [done|]. rewrite decide_False by (simpl; lia).
    by apply (Forall_lookup_1 _ _ _ _ Hpl Hc). }
  apply Forall_cons in Hpl as [Hx Hxs]. apply Forall_cons in Hpe as [Hy Hys].
  change (alternate (x :: xs) (y :: ys)) with (x :: y :: alternate xs ys).
  replace (length (x :: xs) + length (y :: ys) - 2)
    with (length xs + length ys) by (simpl; lia).
  destruct (length xs + length ys) as [|[|k]] eqn:Hk.
  - exists x. split; [done|]. rewrite decide_False by (simpl; lia). done.
  - exists y. split; [done|]. rewrite decide_True by (simpl; lia). done.
  - destruct (IH ys Hxs Hys) as (c & Hc & Hkind); [lia|].
    exists c. split.
    + rewrite Hk in Hc. by replace (S (S k) - 2) with k in Hc by lia.
    + cbn [length]. repeat case_decide; try done; lia.
Qed.

Lemma isPlace_not_isPerson c : isPlace c = true → isPerson c = false.
Proof.
  intros Hc. destruct (isPerson c) eqn:Hp; [|done].
  exfalso. by eapply isPerson_isPlace.
Qed.

Lemma builder_base places persons :
  Forall (λ c, isPlace c = true) places →
  Forall (λ c, isPerson c = true) persons →
  places ≠ [] →
  2 ≤ length places + length persons →
  (∃ first,
     head (preferPlaceSecondToLast (alternate places persons)) = Some first ∧
     if decide (personBeforeLast places persons)
     then isPerson first = true else isPlace first = true) ∧
  (∃ c,
     preferPlaceSecondToLast (alternate places persons)
       !! (length (preferPlaceSecondToLast (alternate places persons)) - 2)
     = Some c ∧ isPlace c = true).
Proof.
  intros Hpl Hpe Hne Hlen.
  destruct (alternate_second_to_last places persons Hpl Hpe Hlen)
    as (c & Hc & Hkind).
  rewrite length_preferPlaceSecondToLast.
  assert (Hal : length (alternate places persons)
                = length places + length persons).
  { by rewrite (Permutation_length (alternate_perm _ _)), length_app. }
  rewrite <- Hal in Hc.
  destruct places as [|x xs]; [done|]. apply Forall_cons in Hpl as [Hx _].
  assert (Hhead : head (alternate (x :: xs) persons) = Some x) by done.
  destruct (decide (personBeforeLast (x :: xs) persons)) as [Hcond|Hcond].
  - assert (H3 : 3 ≤ length (alternate (x :: xs) persons)).
    { unfold personBeforeLast in Hcond. simpl in *. lia. }
    split.
    + exists c. split; [|done].
      by apply (preferPlaceSecondToLast_opening _ x c).
    + exists x. split; [|done].
      unfold preferPlaceSecondToLast.
      replace (2 <=? length (alternate (x :: xs) persons)) with true
        by (symmetry; apply Nat.leb_le; lia).
      rewrite Hc, Hkind.
      destruct (length (alternate (x :: xs) persons) - 2) as [|k] eqn:Hk;
        [lia|].
      rewrite alternate_cons in *. cbn [searchPlace lookup list_lookup].
      rewrite Hx. unfold swap. rewrite Hc. cbn [lookup list_lookup].
      apply list_lookup_insert_eq. rewrite length_insert.
      simpl in *. lia.
  - unfold preferPlaceSecondToLast.
    replace (2 <=? length (alternate (x :: xs) persons)) with true
      by (symmetry; apply Nat.leb_le; lia).
    rewrite Hc, (isPlace_not_isPerson c Hkind).
    split; [by exists x|by exists c].
Qed.

End Categories.

(** ** The builder *)

Lemma Forall_filter_perm (P : Clue → bool) (l l' : list Clue) :
  l' ≡ₚ filter (λ c, P c) l → Forall (λ c, P c = true) l'.
Proof.
  intros Hperm. apply Forall_forall. intros x Hx. rewrite Hperm in Hx.
  apply list_elem_of_filter in Hx as [HP _]. by apply Is_true_true.
Qed.

(** X4. The builder never throws; it answers [null] exactly when the pool
    has no Place or fewer than two clues that are a Person or a Place, and
    then it has drawn no random number. *)
Theorem builder_declines clues w :
  ∃ o w',
    createAlternatingSequence clues w = (inr o, w') ∧
    (o = None
     ↔ length (filter (λ c, isPlace c) (arrayAt w clues)) = 0 ∨
       length (filter (λ c, isPerson c) (arrayAt w clues))
         + length (filter (λ c, isPlace c) (arrayAt w clues)) < 2) ∧
    (o = None → tape w' = tape w).
Proof.
  destruct (createAlternatingSequence_content clues w) as (o & w' & E & _ & H).
  exists o, w'. split; [exact E|].
  destruct o as [a|].
  - destruct H as (Hz & Htwo & _). split; [|done].
    split; [done|]. intros [?|?]; lia.
  - destruct H as [Hcond Ht]. by split.
Qed.

(** X5. The sequence the builder returns is a new array holding a
    permutation of the pool; the pool and every other array that existed
    are left as they were. *)
Theorem builder_permutes clues w a w' :
  createAlternatingSequence clues w = (inr (Some a), w') →
  arrayAt w' a ≡ₚ arrayAt w clues ∧
  length (heap w) ≤ a ∧
  ∀ b, b < length (heap w) → heap w' !! b = heap w !! b.
Proof.
  intros Hrun.
  destruct (createAlternatingSequence_content clues w) as (o & w1 & E & G & H).
  rewrite E in Hrun. injection Hrun as -> ->.
  destruct H as (_ & _ & Ha & persons & places & _ & _ & Hperm & _).
  split; [done|]. split; [done|]. by destruct G.
Qed.

Lemma builder_permutes_witness :
  arrayAt (snd (createAlternatingSequence 0 (mkWorld [askewPool] [1] []))) 4
    ≡ₚ askewPool ∧
  1 ≤ 4 ∧
  ∀ b, b < 1 →
       heap (snd (createAlternatingSequence 0 (mkWorld [askewPool] [1] [])))
         !! b
       = [askewPool] !! b.
Proof.
  apply (builder_permutes 0 (mkWorld [askewPool] [1] []) 4
           (snd (createAlternatingSequence 0 (mkWorld [askewPool] [1] [])))).
  vm_compute. reflexivity.
Defined.

(** X6. The sequence the builder returns opens on a Person when the pool
    has exactly one Place more than Persons or fewer Places than Persons,
    and on a Place otherwise; it never opens on an untyped clue. *)
Theorem builder_opening clues w a w' :
  createAlternatingSequence clues w = (inr (Some a), w') →
  ∃ first,
    head (arrayAt w' a) = Some first ∧
    if decide (personBeforeLast (filter (λ c, isPlace c) (arrayAt w clues))
                 (filter (λ c, isPerson c) (arrayAt w clues)))
    then isPerson first = true
    else isPlace first = true.
Proof.
  intros Hrun.
  destruct (createAlternatingSequence_content clues w) as (o & w1 & E & G & H).
  rewrite E in Hrun. injection Hrun as -> ->.
  destruct H as (Hz & Htwo & _ & persons & places & Hpe & Hpl & _ & Hhead & _).
  pose proof (Permutation_length Hpe) as Lpe.
  pose proof (Permutation_length Hpl) as Lpl.
  destruct (builder_base places persons) as [(first & Hfirst & Hkind) _].
  - by eapply Forall_filter_perm.
  - by eapply Forall_filter_perm.
  - intros ->. simpl in Lpl. lia.
  - lia.
  - exists first. split; [congruence|].
    repeat case_decide; try done; unfold personBeforeLast in *; lia.
Qed.

Lemma builder_opening_witness :
  ∃ first,
    head (arrayAt (snd (createAlternatingSequence 0
                          (mkWorld [samplePool] [1; 0] []))) 4)
    = Some first ∧
    if decide (personBeforeLast (filter (λ c, isPlace c) samplePool)
                 (filter (λ c, isPerson c) samplePool))
    then isPerson first = true
    else isPlace first = true.
Proof.
  apply (builder_opening 0 (mkWorld [samplePool] [1; 0] []) 4
           (snd (createAlternatingSequence 0 (mkWorld [samplePool] [1; 0] [])))).
  vm_compute. reflexivity.
Defined.

(** X7. When the pool has no untyped clue, the second-to-last entry of the
    sequence the builder returns is a Place. *)
Theorem builder_second_to_last clues w a w' :
  createAlternatingSequence clues w = (inr (Some a), w') →
  filter (λ c, isOther c) (arrayAt w clues) = [] →
  ∃ c, arrayAt w' a !! (length (arrayAt w' a) - 2) = Some c ∧
       isPlace c = true.
Proof.
  intros Hrun Hnone.
  destruct (createAlternatingSequence_content clues w) as (o & w1 & E & G & H).
  rewrite E in Hrun. injection Hrun as -> ->.
  destruct H as (Hz & Htwo & _ & persons & places & Hpe & Hpl & _ & _ & Hbase).
  pose proof (Permutation_length Hpe) as Lpe.
  pose proof (Permutation_length Hpl) as Lpl.
  rewrite (Hbase Hnone).
  destruct (builder_base places persons) as [_ Hstl]; [| | |lia|done].
  - by eapply Forall_filter_perm.
  - by eapply Forall_filter_perm.
  - intros ->. simpl in Lpl. lia.
Qed.

Lemma builder_second_to_last_witness :
  ∃ c,
    arrayAt (snd (createAlternatingSequence 0 (mkWorld [askewPool] [1] []))) 4
      !! (length (arrayAt (snd (createAlternatingSequence 0
                                  (mkWorld [askewPool] [1] []))) 4) - 2)
    = Some c ∧
    isPlace c = true.
Proof.
  apply (builder_second_to_last 0 (mkWorld [askewPool] [1] []) 4
           (snd (createAlternatingSequence 0 (mkWorld [askewPool] [1] []))));
    vm_compute; reflexivity.
Defined.

(** ** The validator *)

Lemma sameTypeTwice_hasType tag a b :
  tag = "person"%string ∨ tag = "place"%string →
  hasType tag a = true → hasType tag b = true → sameTypeTwice a b = true.
Proof.
  unfold hasType, sameTypeTwice. intros Htag.
  destruct (clueType a) as [s|]; [|done]. destruct (clueType b) as [t|]; [|done].
  intros Ha Hb.
  apply andb_true_iff in Ha as [-> Ha]. apply andb_true_iff in Hb as [-> Hb].
  apply String.eqb_eq in Ha, Hb. rewrite Ha, Hb, String.eqb_refl.
  destruct Htag as [-> | ->]; done.
Qed.

Lemma violations_same tag (l : list Clue) :
  tag = "person"%string ∨ tag = "place"%string →
  Forall (λ c, hasType tag c = true) l → violations l = length l - 1.
Proof.
  intros Htag Hall. induction l as [|a [|b l] IH]; [done..|].
  apply Forall_cons in Hall as [Ha Hall]. pose proof Hall as Hall'.
  apply Forall_cons in Hall' as [Hb _].
  change (violations (a :: b :: l))
    with ((if sameTypeTwice a b then 1 else 0) + violations (b :: l)).
  rewrite (sameTypeTwice_hasType tag a b), IH by done. simpl. lia.
Qed.

Lemma isTyped_hasType tag c :
  tag = "person"%string ∨ tag = "place"%string →
  hasType tag c = true → isTyped c = true.
Proof.
  unfold hasType, isTyped. intros Htag.
  destruct (clueType c) as [s|]; [|done].
  intros Hc. apply andb_true_iff in Hc as [-> Hc].
  apply String.eqb_eq in Hc. rewrite Hc.
  destruct Htag as [-> | ->]; done.
Qed.

Lemma followsAlternatingTypes_same tag (l : list Clue) :
  tag = "person"%string ∨ tag = "place"%string →
  Forall (λ c, hasType tag c = true) l →
  followsAlternatingTypes l = (length l <=? 2).
Proof.
  intros Htag Hall. unfold followsAlternatingTypes.
  assert (Hfilter : filter (λ c, isTyped c) l = l).
  { clear -Htag Hall. induction Hall as [|c l Hc _ IH]; [done|].
    rewrite filter_cons, (isTyped_hasType tag c), IH by done. done. }
  rewrite Hfilter, (violations_same tag) by done.
  destruct (length l <? 2) eqn:Hlt.
  - apply Nat.ltb_lt in Hlt. symmetry. apply Nat.leb_le. lia.
  - apply Nat.ltb_ge in Hlt.
    destruct (decide (length l = 2)) as [->|Hne]; [done|].
    transitivity false; [|symmetry]; apply Nat.leb_gt.
    + assert (2 * (length l / 2) ≤ length l) by apply Nat.Div0.mul_div_le.
      lia.
    + lia.
Qed.

(** X8. A candidate whose clues are all Places, or all Persons, passes the
    alternation rule exactly when it has at most two clues. *)
Theorem one_category_alternation (l : list Clue) :
  Forall (λ c, isPlace c = true) l ∨ Forall (λ c, isPerson c = true) l →
  followsAlternatingTypes l = (length l <=? 2).
Proof.
  intros [H|H].
  - apply (followsAlternatingTypes_same "place"); [by right|done].
  - apply (followsAlternatingTypes_same "person"); [by left|done].
Qed.

Lemma one_category_alternation_witness :
  followsAlternatingTypes (take 2 samplePool ++ take 1 samplePool)
  = (length (take 2 samplePool ++ take 1 samplePool) <=? 2).
Proof.
  apply (one_category_alternation (take 2 samplePool ++ take 1 samplePool)).
  left. repeat constructor.
Defined.

Lemma violatesConstraints_grows l F P F' P' :
  violatesConstraints l F P = Some true →
  F ⊆ F' → P ⊆ P' →
  violatesConstraints l F' P' = Some true.
Proof.
  destruct l as [|first rest]; [done|]. unfold violatesConstraints.
  intros H HF HP. revert H.
  destruct (bool_decide (question first ∈ F)) eqn:H1.
  { intros _. apply bool_decide_eq_true in H1.
    by rewrite bool_decide_eq_true_2 by by apply HF. }
  destruct (bool_decide (question first ∈ F')); [done|].
  destruct (firstNotPlace first); [done|].
  destruct (existsb (λ pair, bool_decide (pair ∈ P)) (pairKeys (first :: rest)))
    eqn:H3.
  { intros _. apply existsb_exists in H3 as (pair & Hin & Hp).
    apply bool_decide_eq_true in Hp.
    replace (existsb (λ pair, bool_decide (pair ∈ P')) (pairKeys (first :: rest)))
      with true; [done|].
    symmetry. apply existsb_exists. exists pair. split; [done|].
    apply bool_decide_eq_true. by apply HP. }
  by destruct (existsb (λ pair, bool_decide (pair ∈ P'))
                (pairKeys (first :: rest))).
Qed.

(** X9. A candidate the validator rejects stays rejected after any call of
    [recordConstraints]: the ledger only grows. *)
Theorem rejection_is_final l recorded ledger ledger' :
  violatesConstraints l (usedFirstClues ledger) (usedConsecutivePairs ledger)
  = Some true →
  recordConstraints recorded ledger = Some ledger' →
  violatesConstraints l (usedFirstClues ledger') (usedConsecutivePairs ledger')
  = Some true.
Proof.
  intros Hv Hrec.
  apply recordConstraints_Some in Hrec as (first & rest & _ & HF & HP).
  eapply violatesConstraints_grows; [exact Hv| |].
  - rewrite HF. apply union_subseteq_r.
  - intros pair Hin. apply HP. by left.
Qed.

Lemma rejection_is_final_witness :
  violatesConstraints (reverse askewPool) (usedFirstClues sampleLedger)
    (usedConsecutivePairs sampleLedger)
  = Some true.
Proof.
  apply (rejection_is_final (reverse askewPool) (take 2 samplePool)
           (mkLedger ∅ ∅) sampleLedger);
    reflexivity.
Defined.

(** X10. Once a candidate is recorded, the validator rejects every
    candidate that opens on the same question or has one of its adjacent
    pairs, the recorded candidate included. *)
Theorem recorded_is_rejected recorded ledger ledger' first rest :
  recordConstraints recorded ledger = Some ledger' →
  head (question <$> recorded) = Some (question first) ∨
  (∃ pair, pair ∈ pairKeys recorded ∧ pair ∈ pairKeys (first :: rest)) →
  violatesConstraints (first :: rest) (usedFirstClues ledger')
    (usedConsecutivePairs ledger')
  = Some true.
Proof.
  intros Hrec Hshared.
  apply recordConstraints_Some in Hrec as (c & cs & -> & HF & HP).
  unfold violatesConstraints. f_equal.
  destruct Hshared as [Hhead|(pair & Hin & Hin')].
  - injection Hhead as Hq. rewrite bool_decide_eq_true_2; [done|].
    rewrite HF, Hq. apply elem_of_union_l. by apply elem_of_singleton.
  - destruct (bool_decide _); [done|]. destruct (firstNotPlace first); [done|].
    replace (existsb _ _) with true; [done|].
    symmetry. apply existsb_exists. exists pair. split.
    + by apply list_elem_of_In.
    + apply bool_decide_eq_true. apply HP. by right.
Qed.

Lemma recorded_is_rejected_witness :
  violatesConstraints (take 1 samplePool ++ askewPool)
    (usedFirstClues sampleLedger) (usedConsecutivePairs sampleLedger)
  = Some true.
Proof.
  apply (recorded_is_rejected (take 2 samplePool) (mkLedger ∅ ∅) sampleLedger
           (mkClue "What has keys but can't open locks?" "Piano"
              (Some "Place"%string))
           askewPool);
    [reflexivity | by left].
Defined.

(** ** Candidates are orderings of the randomizable pool *)

Lemma perm_nonempty (l l' : list Clue) : l ≡ₚ l' → l' ≠ [] → l ≠ [].
Proof. intros Hperm Hne ->. by apply Permutation_nil_l in Hperm. Qed.

Lemma chooseShuffledClues_candidate randomizableClues ledger w a w' :
  randomizableClues < length (heap w) →
  arrayAt w randomizableClues ≠ [] →
  chooseShuffledClues randomizableClues ledger w = (inr (Some a), w') →
  arrayAt w' a ≡ₚ arrayAt w randomizableClues.
Proof.
  intros Hrc Hne. unfold chooseShuffledClues.
  destruct (createAlternatingSequence_content randomizableClues w)
    as (o & w1 & E1 & G1 & H1).
  step E1.
  assert (Hfall : ∃ fallBack,
    (match o with
     | None => ret true
     | Some a => violatesAt a ledger
     end) w1 = (inr fallBack, w1) ∧
    (fallBack = false → ∃ a1, o = Some a1 ∧
       arrayAt w1 a1 ≡ₚ arrayAt w randomizableClues)).
  { destruct o as [a1|]; [|by exists true].
    destruct H1 as (_ & _ & _ & persons & places & _ & _ & Hperm & _).
    destruct (violatesAt_spec a1 ledger w1) as (b & Eb & _).
    { by eapply perm_nonempty. }
    exists b. split; [done|]. eauto. }
  destruct Hfall as (fallBack & E2 & Hfb). step E2.
  destruct fallBack.
  - unfold bind at 1, readArray.
    destruct (newArray_spec (arrayAt w1 randomizableClues) w1)
      as (w2 & E3 & G2 & L2 & A2 & _).
    step E3.
    destruct (shuffleArray_content (length (heap w1)) w2)
      as (w3 & E4 & C3 & _ & S3).
    step E4.
    assert (Hperm : arrayAt w3 (length (heap w1))
                    ≡ₚ arrayAt w randomizableClues).
    { rewrite C3, shuffled_perm, A2. by rewrite (grows_arrayAt _ _ _ _ G1). }
    destruct (violatesAt_spec (length (heap w1)) ledger w3) as (b & Eb & _).
    { by eapply perm_nonempty. }
    step Eb. destruct b; intros [= <- <-]. exact Hperm.
  - destruct (Hfb eq_refl) as (a1 & -> & Hperm). by intros [= <- <-].
Qed.

Lemma whileSearching_candidate fuel groupNum randomizableClues finalClue
    attempts ledger w sequence att ledger' w' :
  randomizableClues < length (heap w) →
  arrayAt w randomizableClues ≠ [] →
  whileSearching fuel groupNum randomizableClues finalClue attempts ledger w
  = (inr (Some sequence, att, ledger'), w') →
  ∃ l, l ≡ₚ arrayAt w randomizableClues ∧
       sequence = candidateSequence groupNum finalClue l ∧
       violatesConstraints l (usedFirstClues ledger)
         (usedConsecutivePairs ledger) = Some false.
Proof.
  revert attempts w. induction fuel as [|fuel IH]; intros attempts w Hrc Hne.
  { intros [=]. }
  cbn [whileSearching]. destruct (attempts <? maxAttempts); [|intros [=]].
  unfold bind at 1, emit.
  set (w0 := mkWorld (heap w) (tape w)
               (log w ++ [EvAttempt groupNum (attempts + 1)])).
  destruct (chooseShuffledClues_spec randomizableClues ledger w0)
    as (chosen & w1 & E1 & G1 & _ & H1);
    [exact Hrc | change (arrayAt w randomizableClues ≠ []); exact Hne |].
  pose proof (chooseShuffledClues_candidate randomizableClues ledger w0) as Hc.
  rewrite E1 in Hc. step E1.
  destruct chosen as [shuffledClues|].
  - destruct (H1 _ eq_refl) as [Hlen Hv].
    specialize (Hc shuffledClues w1 Hrc Hne eq_refl).
    unfold bind at 1, readArray. unfold bind at 1, emit.
    destruct (recordConstraints_defined (arrayAt w1 shuffledClues) ledger)
      as [ledger1 Hrec].
    { by eapply perm_nonempty. }
    unfold bind at 1. cbn [heap tape log]. unfold arrayAt at 2. cbn [heap].
    fold (arrayAt w1 shuffledClues). rewrite Hrec. cbn [liftOption ret].
    intros [= <- <- <- <-]. exists (arrayAt w1 shuffledClues). done.
  - intros E.
    assert (Hrc1 : randomizableClues < length (heap w1)).
    { destruct G1 as [Hle _]. subst w0. cbn [heap] in Hle. lia. }
    assert (Hpool : arrayAt w1 randomizableClues = arrayAt w randomizableClues).
    { by rewrite (grows_arrayAt _ _ _ _ G1) by exact Hrc. }
    destruct (IH (attempts + 1) w1 Hrc1) as (l & Hperm & Hrest);
      [by rewrite Hpool | exact E |].
    exists l. split; [|done]. by rewrite Hperm, Hpool.
Qed.

Lemma forGroups_scheduled pool finalClue n groupNum randomizableClues
    allSequences ledger w m w' :
  randomizableClues < length (heap w) →
  arrayAt w randomizableClues = pool → pool ≠ [] →
  scheduled pool finalClue allSequences →
  forGroups n groupNum randomizableClues finalClue allSequences ledger w
  = (inr m, w') →
  scheduled pool finalClue m.
Proof.
  revert groupNum allSequences ledger w.
  induction n as [|n IH]; intros groupNum allSequences ledger w Hrc Hpool Hne Hs.
  { by intros [= <- <-]. }
  cbn [forGroups].
  destruct (whileSearching_spec maxAttempts groupNum randomizableClues
              finalClue 0 ledger w Hrc)
    as (found & att & ledger' & w1 & E & G & _); [by rewrite Hpool|].
  pose proof (whileSearching_candidate maxAttempts groupNum randomizableClues
                finalClue 0 ledger w) as Hc.
  rewrite E in Hc. step E.
  destruct found as [sequence|]; [|intros [=]].
  destruct (Hc sequence att ledger' w1 Hrc) as (l & Hperm & -> & Hv);
    [by rewrite Hpool | done |].
  apply IH.
  - destruct G as [Hle _]. lia.
  - by rewrite (grows_arrayAt _ _ _ _ G).
  - done.
  - intros k s. rewrite lookup_insert_Some. intros [[<- <-]|[_ Hk]].
    + apply violatesConstraints_false in Hv
        as (first & rest & -> & _ & Hfirst & _ & Hfollows).
      exists first, rest. by rewrite <- Hpool.
    + by apply Hs.
Qed.

Lemma generateHuntSequences_unfold clues numGroups w :
  2 ≤ length (arrayAt w clues) →
  ∃ finalClue w1,
    last (arrayAt w clues) = Some finalClue ∧
    generateHuntSequences clues numGroups w
    = forGroups numGroups 1 (length (heap w)) finalClue ∅ (mkLedger ∅ ∅) w1 ∧
    length (heap w1) = S (length (heap w)) ∧
    arrayAt w1 (length (heap w))
    = take (length (arrayAt w clues) - 1) (arrayAt w clues).
Proof.
  intros Hlen. unfold generateHuntSequences, bind at 1, readArray.
  set (cl := arrayAt w clues) in *.
  apply Nat.ltb_ge in Hlen as Hlt. rewrite Hlt. clear Hlt.
  destruct (lookup_lt_is_Some_2 cl (length cl - 1)) as [finalClue Hfinal];
    [lia|].
  rewrite Hfinal. unfold bind at 1. cbn [liftOption ret].
  destruct (newArray_spec (take (length cl - 1) cl) w)
    as (w1 & E1 & _ & L1 & A1 & _).
  step E1. exists finalClue, w1.
  split. { by rewrite last_lookup, <- Nat.sub_1_r. }
  done.
Qed.

Lemma run_scheduled clues numGroups w m w' :
  generateHuntSequences clues numGroups w = (inr m, w') →
  ∃ finalClue,
    last (arrayAt w clues) = Some finalClue ∧
    scheduled (take (length (arrayAt w clues) - 1) (arrayAt w clues))
      finalClue m.
Proof.
  intros Hrun.
  destruct (decide (length (arrayAt w clues) < 2)) as [Hshort|Hlong].
  { rewrite generateHuntSequences_short in Hrun by done. discriminate. }
  destruct (generateHuntSequences_unfold clues numGroups w)
    as (finalClue & w1 & Hlast & E & L1 & A1); [lia|].
  rewrite E in Hrun. exists finalClue. split; [done|].
  eapply forGroups_scheduled; [| exact A1 | | | exact Hrun].
  - lia.
  - intros Hnil. apply (f_equal length) in Hnil.
    rewrite length_take in Hnil. simpl in Hnil. lia.
  - intros k s. by rewrite lookup_empty.
Qed.

Lemma fmap_imap_stepAt groupNum finalClue (l : list Clue) :
  (λ step, (stepQuestion step, location step))
    <$> imap (stepAt groupNum finalClue l) l
  = (λ c, (question c, "Hide this at/with: " +:+ answer c)) <$> l.
Proof.
  apply list_eq. intros i.
  rewrite !list_lookup_fmap, list_lookup_imap. by destruct (l !! i).
Qed.

(** X11. In a successful run the steps of a group before its final step
    are the randomizable clues, each exactly once: their questions and
    hiding places are a permutation of those of the pool without its last
    clue. *)
Theorem every_clue_once clues numGroups w m w' g sequence :
  generateHuntSequences clues numGroups w = (inr m, w') →
  m !! g = Some sequence →
  (λ step, (stepQuestion step, location step))
    <$> take (length sequence - 1) sequence
  ≡ₚ (λ c, (question c, "Hide this at/with: " +:+ answer c))
       <$> take (length (arrayAt w clues) - 1) (arrayAt w clues).
Proof.
  intros Hrun Hg.
  apply run_scheduled in Hrun as (finalClue & _ & Hs).
  destruct (Hs g sequence Hg) as (first & rest & Hperm & _ & _ & ->).
  rewrite length_candidateSequence.
  replace (length (first :: rest) + 1 - 1) with (length (first :: rest)) by lia.
  unfold candidateSequence.
  rewrite take_app_length' by by rewrite length_imap.
  rewrite fmap_imap_stepAt. by rewrite Hperm.
Qed.

Lemma every_clue_once_witness :
  (λ step, (stepQuestion step, location step))
    <$> take (length (default [] (sampleSequences !! 2)) - 1)
          (default [] (sampleSequences !! 2))
  ≡ₚ (λ c, (question c, "Hide this at/with: " +:+ answer c))
       <$> take (length samplePool - 1) samplePool.
Proof.
  apply (every_clue_once 0 2 sampleWorld sampleSequences sampleEnd 2);
    [exact sample_run | vm_compute; reflexivity].
Defined.

(** X12. In a successful run every group opens on a randomizable clue that
    passes rule 1b: its category is absent, empty or 'place', never
    'person'. *)
Theorem groups_open_on_place_or_untyped clues numGroups w m w' g sequence :
  generateHuntSequences clues numGroups w = (inr m, w') →
  m !! g = Some sequence →
  ∃ c step rest,
    sequence = step :: rest ∧
    c ∈ take (length (arrayAt w clues) - 1) (arrayAt w clues) ∧
    stepQuestion step = question c ∧
    location step = "Hide this at/with: " +:+ answer c ∧
    firstNotPlace c = false ∧
    isPerson c = false.
Proof.
  intros Hrun Hg.
  apply run_scheduled in Hrun as (finalClue & _ & Hs).
  destruct (Hs g sequence Hg) as (first & others & Hperm & Hfirst & _ & ->).
  exists first. eexists _, _. split; [reflexivity|].
  split. { rewrite <- Hperm. apply list_elem_of_here. }
  split; [done|]. split; [done|]. split; [done|].
  unfold firstNotPlace in Hfirst. unfold isPerson, hasType.
  destruct (clueType first) as [s|]; [|done].
  destruct (String.eqb s ""); [done|]. simpl in *.
  destruct (String.eqb_spec (toLowerCase s) "place") as [->|]; done.
Qed.

Lemma groups_open_on_place_or_untyped_witness :
  ∃ c step rest,
    default [] (sampleSequences !! 1) = step :: rest ∧
    c ∈ take (length samplePool - 1) samplePool ∧
    stepQuestion step = question c ∧
    location step = "Hide this at/with: " +:+ answer c ∧
    firstNotPlace c = false ∧
    isPerson c = false.
Proof.
  apply (groups_open_on_place_or_untyped 0 2 sampleWorld sampleSequences
           sampleEnd 1);
    [exact sample_run | vm_compute; reflexivity].
Defined.

(** ** How many groups a pool can serve *)

Lemma length_le_size (questions : list string) (X : gset string) :
  NoDup questions → (∀ q, q ∈ questions → q ∈ X) → length questions ≤ size X.
Proof.
  intros Hnd Hin.
  rewrite <- (size_list_to_set (C := gset string) questions Hnd).
  apply subseteq_size. intros q Hq. apply Hin. by apply elem_of_list_to_set in Hq.
Qed.

(** X13. A successful run has no more groups than there are distinct
    questions among the randomizable clues that pass rule 1b: every group
    needs an opening question of its own. *)
Theorem groups_bounded_by_openings clues numGroups w m w' :
  generateHuntSequences clues numGroups w = (inr m, w') →
  numGroups
  ≤ size (list_to_set
            (question
               <$> filter (λ c, firstNotPlace c = false)
                     (take (length (arrayAt w clues) - 1) (arrayAt w clues)))
          : gset string).
Proof.
  intros Hrun.
  pose proof (run_scheduled _ _ _ _ _ Hrun) as (finalClue & _ & Hs).
  apply run_success in Hrun
    as (_ & finalClue' & ledger' & _ & [Hdom _ _ _ Hdistinct]).
  set (pool := take (length (arrayAt w clues) - 1) (arrayAt w clues)) in *.
  pose (opening := λ g : nat,
          default ""%string (stepQuestion <$> (m !! g ≫= head))).
  assert (Hopen : ∀ g, 1 ≤ g ≤ numGroups →
            ∃ s first,
              m !! g = Some s ∧ first ∈ pool ∧ firstNotPlace first = false ∧
              head (questionsOf s) = Some (question first) ∧
              opening g = question first).
  { intros g Hg. destruct (proj2 (Hdom g)) as [s Hsome]; [lia|].
    destruct (Hs g s Hsome) as (first & rest & Hperm & Hfirst & _ & ->).
    exists (candidateSequence g finalClue (first :: rest)), first.
    split; [done|]. split. { rewrite <- Hperm. apply list_elem_of_here. }
    split; [done|]. split; [by rewrite questionsOf_candidateSequence|].
    unfold opening. by rewrite Hsome. }
  replace numGroups with (length (opening <$> seq 1 numGroups))
    by by rewrite length_fmap, length_seq.
  apply length_le_size.
  - apply NoDup_fmap_2_strong; [|apply NoDup_seq].
    intros x y Hx Hy Heq. apply elem_of_seq in Hx, Hy.
    destruct (decide (x = y)) as [|Hne]; [done|]. exfalso.
    destruct (Hopen x) as (s1 & c1 & H1 & _ & _ & Hh1 & Ho1); [lia|].
    destruct (Hopen y) as (s2 & c2 & H2 & _ & _ & Hh2 & Ho2); [lia|].
    destruct (Hdistinct x y s1 s2 Hne H1 H2) as [Hhead _].
    apply Hhead. rewrite Hh1, Hh2. congruence.
  - intros q Hq. apply list_elem_of_fmap in Hq as (g & -> & Hg).
    apply elem_of_seq in Hg.
    destruct (Hopen g) as (s & c & _ & Hin & Hfirst & _ & ->); [lia|].
    apply elem_of_list_to_set, list_elem_of_fmap. exists c. split; [done|].
    by apply list_elem_of_filter.
Qed.

Lemma groups_bounded_by_openings_witness :
  2 ≤ size (list_to_set
              (question
                 <$> filter (λ c, firstNotPlace c = false)
                       (take (length samplePool - 1) samplePool))
            : gset string).
Proof.
  apply (groups_bounded_by_openings 0 2 sampleWorld sampleSequences sampleEnd).
  exact sample_run.
Defined.

(** X14. The mapping a successful run returns has exactly the keys
    [1..numGroups]. *)
Theorem groups_are_numbered clues numGroups w m w' g :
  generateHuntSequences clues numGroups w = (inr m, w') →
  is_Some (m !! g) ↔ 1 ≤ g ≤ numGroups.
Proof.
  intros Hrun.
  apply run_success in Hrun as (_ & finalClue & ledger' & _ & [Hdom _ _ _ _]).
  rewrite Hdom. lia.
Qed.

Lemma groups_are_numbered_witness :
  is_Some (sampleSequences !! 3) ↔ 1 ≤ 3 ≤ 2.
Proof.
  apply (groups_are_numbered 0 2 sampleWorld sampleSequences sampleEnd 3).
  exact sample_run.
Defined.

Lemma groupsLog_failed n g k events :
  groupsLog n g (Some k) events → g ≤ k < g + n.
Proof.
  revert g events. induction n as [|n IH]; intros g events H.
  { by destruct H. }
  destruct H as [(a & rest & _ & _ & Hrest)|[[= <-] _]]; [|lia].
  apply IH in Hrest. lia.
Qed.

(** X15. A call of [generateHuntSequences] ends in one of three ways: it
    returns a mapping, it throws the error for fewer than two clues, or it
    throws the error of a group of [1..numGroups] that ran out of attempts.
    It never throws a TypeError. *)
Theorem outcomes_of_a_run clues numGroups w :
  match fst (generateHuntSequences clues numGroups w) with
  | inr _ => 2 ≤ length (arrayAt w clues)
  | inl TypeError => False
  | inl (Error message) =>
      (length (arrayAt w clues) < 2 ∧
       message = "Need at least 2 clues to generate a hunt"%string) ∨
      (2 ≤ length (arrayAt w clues) ∧
       ∃ g, 1 ≤ g ≤ numGroups ∧
            message
            = "Could not generate valid sequence for Group " +:+ pretty g
                +:+ " after 100 attempts. "
                +:+ "Try using more clues or fewer groups.")
  end.
Proof.
  destruct (decide (length (arrayAt w clues) < 2)) as [Hshort|Hlong].
  { rewrite generateHuntSequences_short by done. by left. }
  destruct (generateHuntSequences_spec clues numGroups w)
    as (finalClue & r & w1 & failed & events & _ & E & _ & _ & Hev & Hr);
    [lia|].
  rewrite E. cbn [fst]. destruct r as [e|m]; [|lia].
  destruct failed as [k|]; [|done]. subst e. right. split; [lia|].
  apply groupsLog_failed in Hev. exists k. split; [lia|done].
Qed.

(** X16. When the randomizable clues are three or more and all Places, or
    all Persons, no ordering of them passes the validator: every run with
    at least one group throws the error of Group 1, on every tape. *)
Theorem one_category_pool_fails clues numGroups w :
  3 ≤ length (take (length (arrayAt w clues) - 1) (arrayAt w clues)) →
  Forall (λ c, isPlace c = true)
    (take (length (arrayAt w clues) - 1) (arrayAt w clues)) ∨
  Forall (λ c, isPerson c = true)
    (take (length (arrayAt w clues) - 1) (arrayAt w clues)) →
  1 ≤ numGroups →
  fst (generateHuntSequences clues numGroups w)
  = inl (Error "Could not generate valid sequence for Group 1 after 100 attempts. Try using more clues or fewer groups.").
Proof.
  intros Hlen Hall Hgroups.
  set (pool := take (length (arrayAt w clues) - 1) (arrayAt w clues)) in *.
  assert (Hcl : 2 ≤ length (arrayAt w clues)).
  { subst pool. rewrite length_take in Hlen. lia. }
  destruct (generateHuntSequences_unfold clues numGroups w Hcl)
    as (finalClue & w1 & _ & E & L1 & A1).
  rewrite E. destruct numGroups as [|n]; [lia|]. cbn [forGroups].
  assert (Hne : arrayAt w1 (length (heap w)) ≠ []).
  { rewrite A1. fold pool. intros Hnil. rewrite Hnil in Hlen. simpl in Hlen. lia. }
  destruct (whileSearching_spec maxAttempts 1 (length (heap w)) finalClue 0
              (mkLedger ∅ ∅) w1)
    as (found & att & ledger' & w2 & E2 & _); [lia|done|].
  pose proof (whileSearching_candidate maxAttempts 1 (length (heap w))
                finalClue 0 (mkLedger ∅ ∅) w1) as Hc.
  rewrite E2 in Hc. step E2.
  destruct found as [sequence|]; [|done]. exfalso.
  destruct (Hc sequence att ledger' w2) as (l & Hperm & _ & Hv);
    [lia|done|done|].
  apply violatesConstraints_false in Hv as (_ & _ & _ & _ & _ & _ & Hfollows).
  rewrite A1 in Hperm. fold pool in Hperm.
  assert (Hsame : followsAlternatingTypes l = (length l <=? 2)).
  { destruct Hall as [H|H].
    - apply (followsAlternatingTypes_same "place"); [by right|].
      by rewrite Hperm.
    - apply (followsAlternatingTypes_same "person"); [by left|].
      by rewrite Hperm. }
  rewrite Hfollows in Hsame. symmetry in Hsame. apply Nat.leb_le in Hsame.
  rewrite (Permutation_length Hperm) in Hsame. lia.
Qed.

Lemma one_category_pool_fails_witness :
  fst (generateHuntSequences 0 2 (mkWorld [placesPool] [4; 1; 2] []))
  = inl (Error "Could not generate valid sequence for Group 1 after 100 attempts. Try using more clues or fewer groups.").
Proof.
  apply (one_category_pool_fails 0 2 (mkWorld [placesPool] [4; 1; 2] [])).
  - vm_compute. lia.
  - left. vm_compute. repeat constructor.
  - lia.
Defined.

(** ** The sheet of a group *)

Lemma last_split {A} (l : list A) x :
  last l = Some x → l = take (length l - 1) l ++ [x].
Proof.
  intros Hlast. destruct (decide (l = [])) as [->|Hne]; [done|].
  rewrite <- (take_drop (length l - 1) l) at 1. f_equal.
  rewrite last_lookup in Hlast.
  replace (Init.Nat.pred (length l)) with (length l - 1) in Hlast by lia.
  rewrite (drop_S _ _ _ Hlast).
  rewrite drop_ge; [done|]. destruct l; [done|]. simpl. lia.
Qed.

Lemma lookup_candidateSequence_step groupNum finalClue (l : list Clue) i c :
  l !! i = Some c →
  candidateSequence groupNum finalClue l !! i
  = Some (stepAt groupNum finalClue l i c).
Proof.
  intros Hi. unfold candidateSequence.
  rewrite lookup_app_l by (rewrite length_imap; by eapply lookup_lt_Some).
  by rewrite list_lookup_imap, Hi.
Qed.

Lemma lookup_candidateSequence_last groupNum finalClue (l : list Clue) :
  candidateSequence groupNum finalClue l !! length l
  = Some (finalStep finalClue l).
Proof.
  unfold candidateSequence.
  rewrite lookup_app_r by by rewrite length_imap.
  by rewrite length_imap, Nat.sub_diag.
Qed.

Lemma stepAt_next groupNum finalClue (l : list Clue) i c next :
  (l ++ [finalClue]) !! (i + 1) = Some next → l !! i = Some c →
  includes (nextClue (stepAt groupNum finalClue l i c)) (question next) = true.
Proof.
  intros Hnext Hc. cbn [stepAt nextClue].
  apply lookup_app_Some in Hnext as [Hnext|[Hlen Hnext]].
  - rewrite Hnext. do 5 apply includes_append_r.
    rewrite <- (append_empty_r (question next)) at 1. apply includes_here.
  - rewrite (proj2 (lookup_ge_None l (i + 1))) by done.
    destruct (i + 1 - length l) as [|k]; [|done]. injection Hnext as <-.
    do 5 apply includes_append_r.
    rewrite <- (append_empty_r (question finalClue)) at 1.
    apply includes_here.
Qed.

(** X17. The sheet of a group in a successful run is a trail through the
    whole pool: the slips, read from the row of the first clue down, ask the
    questions of the clues in an order that ends on the final clue, every
    slip but the first lies in the row whose location is the answer of the
    slip before it, and the last row, at the answer of the final clue,
    holds the end marker. Every row has two cells. *)
Theorem group_sheet_is_a_trail clues numGroups w m w' g sequence :
  generateHuntSequences clues numGroups w = (inr m, w') →
  m !! g = Some sequence →
  ∃ data order,
    groupSheetData g sequence = Some data ∧
    order ≡ₚ arrayAt w clues ∧
    last order = last (arrayAt w clues) ∧
    length data = length order + 2 ∧
    (∀ row, row ∈ data → length row = 2) ∧
    (∀ i c, order !! i = Some c →
       ∃ place slip next,
         data !! (i + 1) = Some [place; slip] ∧
         includes slip (question c) = true ∧
         data !! (i + 2) = Some ["Hide this at/with: " +:+ answer c; next]) ∧
    ∃ place,
      last data = Some [place; pretty (length order + 1) +:+ ". The End"].
Proof.
  intros Hrun Hg.
  apply run_scheduled in Hrun as (finalClue & Hlast & Hs).
  destruct (Hs g sequence Hg) as (first & rest & Hperm & _ & _ & ->).
  set (l := first :: rest) in *.
  set (rows := (λ clueSeq, [location clueSeq; nextClue clueSeq])
                 <$> candidateSequence g finalClue l).
  eexists _, (l ++ [finalClue]). split; [reflexivity|]. fold rows.
  assert (Hrows : ∀ i c, (l ++ [finalClue]) !! i = Some c →
            ∃ next, rows !! i
                    = Some ["Hide this at/with: " +:+ answer c; next] ∧
                    ∀ d, (l ++ [finalClue]) !! (i + 1) = Some d →
                         includes next (question d) = true).
  { intros i c Hi. subst rows. rewrite list_lookup_fmap.
    apply lookup_app_Some in Hi as [Hi|[Hlen Hi]].
    - rewrite (lookup_candidateSequence_step g finalClue l i c Hi).
      eexists. split; [reflexivity|]. intros d Hd.
      by apply (stepAt_next g finalClue l i c d).
    - destruct (i - length l) as [|k] eqn:Hk; [|done]. injection Hi as <-.
      assert (i = length l) as -> by lia.
      rewrite lookup_candidateSequence_last.
      eexists. split; [reflexivity|]. intros d Hd.
      rewrite lookup_ge_None_2 in Hd; [done|]. rewrite length_app. simpl. lia. }
  split. { rewrite Hperm. by rewrite <- (last_split _ _ Hlast). }
  split. { by rewrite last_snoc. }
  split.
  { cbn [length]. subst rows.
    rewrite length_fmap, length_candidateSequence, length_app. simpl. lia. }
  split.
  { intros row Hrow. repeat apply elem_of_cons in Hrow as [->|Hrow]; [done..|].
    subst rows. apply list_elem_of_fmap in Hrow as (step & -> & _). done. }
  split.
  { intros i c Hi. destruct (Hrows i c Hi) as (next & Hrow & _).
    replace (i + 2) with (S (S i)) by lia. replace (i + 1) with (S i) by lia.
    destruct i as [|j].
    - injection Hi as <-. eexists _, _, next. split; [reflexivity|].
      split; [|exact Hrow].
      do 3 apply includes_append_r. cbn [stepAt stepQuestion].
      rewrite <- (append_empty_r (question first)) at 1. apply includes_here.
    - destruct (lookup_lt_is_Some_2 (l ++ [finalClue]) j) as [b Hb].
      { apply lookup_lt_Some in Hi. lia. }
      destruct (Hrows j b Hb) as (slip & Hslip & Hincl).
      eexists _, slip, next. split; [exact Hslip|]. split; [|exact Hrow].
      apply Hincl. by replace (j + 1) with (S j) by lia. }
  eexists. rewrite !last_cons. subst rows.
  rewrite fmap_last, last_candidateSequence. cbn [fmap option_fmap option_map].
  rewrite length_app. cbn [finalStep location nextClue length].
  replace (length l + 1 + 1) with (length l + 2) by lia.
  destruct (last _); reflexivity.
Qed.

Lemma group_sheet_is_a_trail_witness :
  ∃ data order,
    groupSheetData 1 (default [] (sampleSequences !! 1)) = Some data ∧
    order ≡ₚ samplePool ∧
    last order = last samplePool ∧
    length data = length order + 2 ∧
    (∀ row, row ∈ data → length row = 2) ∧
    (∀ i c, order !! i = Some c →
       ∃ place slip next,
         data !! (i + 1) = Some [place; slip] ∧
         includes slip (question c) = true ∧
         data !! (i + 2) = Some ["Hide this at/with: " +:+ answer c; next]) ∧
    ∃ place,
      last data = Some [place; pretty (length order + 1) +:+ ". The End"].
Proof.
  apply (group_sheet_is_a_trail 0 2 sampleWorld sampleSequences sampleEnd 1);
    [exact sample_run | vm_compute; reflexivity].
Defined.

(** ** The names of the sheets *)

Lemma isDigit_pretty_N_char x : isDigit (pretty_N_char x) = true.
Proof. unfold pretty_N_char. by repeat case_match. Qed.

Lemma allDigits_pretty_N_go x s :
  allDigits s = true → allDigits (pretty_N_go x s) = true.
Proof.
  revert s. induction (N.lt_wf_0 x) as [x _ IH]; intros s Hs.
  assert (x = 0 ∨ 0 < x)%N as [->|Hx] by lia.
  - by rewrite pretty_N_go_0.
  - rewrite pretty_N_go_step by done. apply IH.
    + by apply N.div_lt.
    + cbn [allDigits]. by rewrite isDigit_pretty_N_char.
Qed.

Lemma length_pretty_N_go x s :
  String.length s ≤ String.length (pretty_N_go x s).
Proof.
  revert s. induction (N.lt_wf_0 x) as [x _ IH]; intros s.
  assert (x = 0 ∨ 0 < x)%N as [->|Hx] by lia.
  - by rewrite pretty_N_go_0.
  - rewrite pretty_N_go_step by done.
    etrans; [|apply IH; by apply N.div_lt]. simpl. lia.
Qed.

Lemma pretty_nat_digits (n : nat) :
  allDigits (pretty n) = true ∧ pretty n ≠ ""%string.
Proof.
  unfold pretty, pretty_nat, pretty, pretty_N.
  destruct (decide (N.of_nat n = 0%N)) as [|Hn]; [done|].
  split; [by apply allDigits_pretty_N_go|].
  rewrite pretty_N_go_step by lia. intros Hempty.
  pose proof (length_pretty_N_go (N.of_nat n `div` 10)
                (String (pretty_N_char (N.of_nat n `mod` 10)) "")) as Hlen.
  rewrite Hempty in Hlen. simpl in Hlen. lia.
Qed.

Lemma matchesGroupSheet_groupSheetName groupNum :
  matchesGroupSheet (groupSheetName groupNum) = true.
Proof.
  unfold matchesGroupSheet, groupSheetName.
  change (afterPrefix "Group " ("Group " +:+ pretty groupNum))
    with (Some (pretty groupNum)).
  destruct (pretty_nat_digits groupNum) as [Hd Hne].
  rewrite Hd. by apply String.eqb_neq in Hne as ->.
Qed.

(** X18. Whatever other sheets there are, the clean-up deletes the sheets
    a generation inserts, 'Master' and 'Group g' for every group number,
    keeps the 'Clues' sheet, and deletes nothing it was not shown. *)
Theorem cleanup_covers_generated_sheets (sheets : list string) (g : nat) :
  ("Master"%string ∈ sheets
   → "Master"%string ∈ cleanupExistingHuntSheets sheets) ∧
  (groupSheetName g ∈ sheets
   → groupSheetName g ∈ cleanupExistingHuntSheets sheets) ∧
  ("Clues"%string ∉ cleanupExistingHuntSheets sheets) ∧
  (∀ sheetName, sheetName ∈ cleanupExistingHuntSheets sheets
                → sheetName ∈ sheets).
Proof.
  unfold cleanupExistingHuntSheets. repeat split.
  - intros Hin. by apply list_elem_of_filter.
  - intros Hin. apply list_elem_of_filter. split; [|done].
    rewrite matchesGroupSheet_groupSheetName. by rewrite orb_true_r.
  - intros Hin. by apply list_elem_of_filter in Hin as [Hin _].
  - intros sheetName Hin. by apply list_elem_of_filter in Hin as [_ Hin].
Qed.

(** ** Runs with more groups *)

Lemma forGroups_more n d groupNum randomizableClues finalClue allSequences
    ledger w :
  match forGroups n groupNum randomizableClues finalClue allSequences ledger w
  with
  | (inl e, w1) =>
      forGroups (n + d) groupNum randomizableClues finalClue allSequences
        ledger w
      = (inl e, w1)
  | (inr m, w1) =>
      ∃ ledger1,
        forGroups (n + d) groupNum randomizableClues finalClue allSequences
          ledger w
        = forGroups d (groupNum + n) randomizableClues finalClue m ledger1 w1
  end.
Proof.
  revert groupNum allSequences ledger w.
  induction n as [|n IH]; intros groupNum allSequences ledger w.
  { cbn [forGroups ret Nat.add]. exists ledger. by rewrite Nat.add_0_r. }
  cbn [forGroups Nat.add]. unfold bind.
  destruct (whileSearching maxAttempts groupNum randomizableClues finalClue 0
              ledger w) as [[e|[[[sequence|] att] ledger1]] w1]; [done| |done].
  specialize (IH (S groupNum) (<[groupNum := sequence]> allSequences)
                ledger1 w1).
  by replace (groupNum + S n) with (S groupNum + n) by lia.
Qed.

Lemma forGroups_keeps n groupNum randomizableClues finalClue allSequences
    ledger w m w' k :
  forGroups n groupNum randomizableClues finalClue allSequences ledger w
  = (inr m, w') →
  k < groupNum → m !! k = allSequences !! k.
Proof.
  revert groupNum allSequences ledger w.
  induction n as [|n IH]; intros groupNum allSequences ledger w.
  { by intros [= <- <-]. }
  cbn [forGroups]. unfold bind.
  destruct (whileSearching maxAttempts groupNum randomizableClues finalClue 0
              ledger w) as [[e|[[[sequence|] att] ledger1]] w1]; try done.
  intros E Hk. rewrite (IH _ _ _ _ E) by lia.
  apply lookup_insert_ne. lia.
Qed.

Lemma generateHuntSequences_forGroups clues w :
  2 ≤ length (arrayAt w clues) →
  ∃ finalClue,
    ∀ numGroups,
      generateHuntSequences clues numGroups w
      = forGroups numGroups 1 (length (heap w)) finalClue ∅ (mkLedger ∅ ∅)
          (mkWorld
             (heap w
                ++ [take (length (arrayAt w clues) - 1) (arrayAt w clues)])
             (tape w) (log w)).
Proof.
  intros Hlen.
  destruct (lookup_lt_is_Some_2 (arrayAt w clues)
              (length (arrayAt w clues) - 1)) as [finalClue Hfinal]; [lia|].
  exists finalClue. intros numGroups.
  unfold generateHuntSequences, bind at 1, readArray.
  apply Nat.ltb_ge in Hlen. rewrite Hlen, Hfinal. reflexivity.
Qed.

Lemma generateHuntSequences_more clues numGroups more w :
  match generateHuntSequences clues numGroups w with
  | (inl e, w1) =>
      generateHuntSequences clues (numGroups + more) w = (inl e, w1)
  | (inr m, w1) =>
      ∀ m' w', generateHuntSequences clues (numGroups + more) w = (inr m', w') →
               ∀ g, g ≤ numGroups → m' !! g = m !! g
  end.
Proof.
  destruct (decide (length (arrayAt w clues) < 2)) as [Hshort|Hlong].
  { by rewrite !generateHuntSequences_short by done. }
  destruct (generateHuntSequences_forGroups clues w) as [finalClue E]; [lia|].
  rewrite !E.
  pose proof (forGroups_more numGroups more 1 (length (heap w)) finalClue ∅
                (mkLedger ∅ ∅)
                (mkWorld
                   (heap w
                      ++ [take (length (arrayAt w clues) - 1) (arrayAt w clues)])
                   (tape w) (log w))) as Hmore.
  destruct (forGroups numGroups 1 _ _ _ _ _) as [[e|m] w1]; [done|].
  destruct Hmore as [ledger1 Hmore]. rewrite Hmore.
  intros m' w' Hrest g Hg.
  eapply forGroups_keeps; [exact Hrest|lia].
Qed.

(** X19. Asking for more groups never saves a run: when a run throws, the
    run for any larger number of groups on the same tape throws the same
    error and leaves the same world. *)
Theorem more_groups_fail_alike clues numGroups more w e w1 :
  generateHuntSequences clues numGroups w = (inl e, w1) →
  generateHuntSequences clues (numGroups + more) w = (inl e, w1).
Proof.
  intros Hrun.
  pose proof (generateHuntSequences_more clues numGroups more w) as H.
  by rewrite Hrun in H.
Qed.

Lemma more_groups_fail_alike_witness :
  generateHuntSequences 0 (1 + 4) personFirstWorld
  = (inl (Error (exhaustedMessage 1)),
     snd (generateHuntSequences 0 1 personFirstWorld)).
Proof.
  apply (more_groups_fail_alike 0 1 4 personFirstWorld).
  vm_compute. reflexivity.
Defined.

(** X20. The sequences of the first groups do not depend on how many
    groups follow: when the runs for [numGroups] and for more groups both
    return on the same tape, they give the groups up to [numGroups] the
    same sequences. *)
Theorem earlier_groups_unchanged clues numGroups more w m w1 m' w' g :
  generateHuntSequences clues numGroups w = (inr m, w1) →
  generateHuntSequences clues (numGroups + more) w = (inr m', w') →
  g ≤ numGroups →
  m' !! g = m !! g.
Proof.
  intros Hrun Hmore Hg.
  pose proof (generateHuntSequences_more clues numGroups more w) as H.
  rewrite Hrun in H. by eapply H.
Qed.

Lemma earlier_groups_unchanged_witness :
  sampleSequences !! 1
  = match fst (generateHuntSequences 0 1 sampleWorld) with
    | inr m => m
    | inl _ => ∅
    end !! 1.
Proof.
  apply (earlier_groups_unchanged 0 1 1 sampleWorld
           (match fst (generateHuntSequences 0 1 sampleWorld) with
            | inr m => m
            | inl _ => ∅
            end)
           (snd (generateHuntSequences 0 1 sampleWorld))
           sampleSequences sampleEnd 1);
    [vm_compute; reflexivity | exact sample_run | lia].
Defined.

(** ** The master sheet *)

Lemma omap_total {A B} (F : A → option B) (G : A → B) (l : list A) :
  (∀ k, k ∈ l → F k = Some (G k)) → omap F l = G <$> l.
Proof.
  induction l as [|k l IH]; intros H; [done|].
  cbn [omap list_omap]. rewrite (H k) by apply list_elem_of_here.
  rewrite IH; [done|]. intros k' Hk'. apply H. by apply list_elem_of_further.
Qed.

Lemma objectEntries_numbered {V} `{Inhabited V} (o : gmap nat V) n :
  (∀ k, is_Some (o !! k) ↔ 1 ≤ k ≤ n) →
  objectEntries o = (λ k, (k, o !!! k)) <$> seq 1 n.
Proof.
  intros Hdom. unfold objectEntries.
  assert (Hkeys : ∀ k, k ∈ (map_to_list o).*1 ↔ 1 ≤ k ≤ n).
  { intros k. rewrite <- Hdom. split.
    - intros Hin. apply list_elem_of_fmap in Hin as ([k' v] & -> & Hkv).
      exists v. by apply elem_of_map_to_list.
    - intros [v Hv]. apply list_elem_of_fmap. exists (k, v). split; [done|].
      by apply elem_of_map_to_list. }
  assert (Hmax : max_list ((map_to_list o).*1) = n).
  { destruct n as [|n].
    - destruct ((map_to_list o).*1) as [|k ks] eqn:Hl; [done|].
      pose proof (proj1 (Hkeys k) (list_elem_of_here _ _)). lia.
    - apply Nat.le_antisymm.
      + apply Hkeys, max_list_elem_of. intros Hnil.
        pose proof (proj2 (Hkeys (S n)) ltac:(lia)) as Hin.
        rewrite Hnil in Hin. by apply elem_of_nil in Hin.
      + apply max_list_elem_of_le, Hkeys. lia. }
  rewrite Hmax. cbn [seq omap list_omap].
  assert (o !! 0 = None) as ->.
  { apply eq_None_not_Some. rewrite Hdom. lia. }
  cbn [fmap option_fmap option_map]. apply omap_total.
  intros k Hk. apply elem_of_seq in Hk.
  destruct (proj2 (Hdom k)) as [v Hv]; [lia|].
  by rewrite (lookup_total_correct _ _ _ Hv), Hv.
Qed.

(** X21. The master sheet of a successful run has, below its header, one
    row of five cells for every step of every group, group after group in
    ascending order: the row of step [i + 1] of group [g] is row
    [1 + (g - 1) * n + i], [n] being the number of clues. *)
Theorem master_sheet_lists_every_step clues numGroups w m w' :
  generateHuntSequences clues numGroups w = (inr m, w') →
  length (masterSheetData m) = 1 + numGroups * length (arrayAt w clues) ∧
  (∀ row, row ∈ masterSheetData m → length row = 5) ∧
  ∀ g sequence i step,
    m !! g = Some sequence → sequence !! i = Some step →
    masterSheetData m !! (1 + (g - 1) * length (arrayAt w clues) + i)
    = Some (masterRow g step).
Proof.
  intros Hrun.
  apply run_success in Hrun
    as (Hlen & finalClue & ledger' & _ & [Hdom Hshape _ _ _]).
  set (n := length (arrayAt w clues)) in *.
  assert (Hsize : ∀ k s, m !! k = Some s → length s = n).
  { intros k s Hk. destruct (Hshape k s Hk) as (l & _ & Hl & ->).
    rewrite length_candidateSequence. lia. }
  unfold masterSheetData.
  rewrite (objectEntries_numbered m numGroups)
    by (intros k; rewrite Hdom; lia).
  rewrite <- list_fmap_compose.
  set (blocks := (_ ∘ _) <$> seq 1 numGroups).
  assert (Hblock : ∀ j, j < numGroups →
            ∃ s, m !! (1 + j) = Some s ∧
                 blocks !! j = Some (masterRow (1 + j) <$> s)).
  { intros j Hj. destruct (proj2 (Hdom (1 + j))) as [s Hs]; [lia|].
    exists s. split; [done|]. subst blocks.
    rewrite list_lookup_fmap, (lookup_seq_lt _ _ _ Hj). simpl.
    by rewrite (lookup_total_correct _ _ _ Hs). }
  assert (Hall : Forall (λ b, length b = n) blocks).
  { apply Forall_lookup. intros j b Hb.
    assert (Hj : j < numGroups).
    { apply lookup_lt_Some in Hb. subst blocks.
      by rewrite length_fmap, length_seq in Hb. }
    destruct (Hblock j Hj) as (s & Hs & Hbj). rewrite Hbj in Hb.
    injection Hb as <-. rewrite length_fmap. by eapply Hsize. }
  split; [|split].
  - cbn [length]. rewrite length_join, (sum_list_fmap_same n) by done.
    subst blocks. by rewrite length_fmap, length_seq.
  - intros row Hrow. apply elem_of_cons in Hrow as [->|Hrow]; [done|].
    apply list_elem_of_join in Hrow as (b & Hrow & Hb).
    apply list_elem_of_lookup in Hb as [j Hb].
    assert (Hj : j < numGroups).
    { apply lookup_lt_Some in Hb. subst blocks.
      by rewrite length_fmap, length_seq in Hb. }
    destruct (Hblock j Hj) as (s & _ & Hbj). rewrite Hbj in Hb.
    injection Hb as <-. by apply list_elem_of_fmap in Hrow as (step & -> & _).
  - intros g sequence i step Hg Hi.
    assert (Hgr : 1 ≤ g < 1 + numGroups) by (apply Hdom; eauto).
    destruct (Hblock (g - 1)) as (s & Hs & Hb); [lia|].
    replace (1 + (g - 1)) with g in * by lia.
    rewrite Hg in Hs. injection Hs as <-.
    change (1 + (g - 1) * n + i) with (S ((g - 1) * n + i)).
    cbn [lookup list_lookup]. apply join_lookup_Some.
    exists (g - 1), (masterRow g <$> sequence), i.
    split; [done|]. split; [by rewrite list_lookup_fmap, Hi|].
    rewrite (sum_list_fmap_same n) by by apply Forall_take.
    rewrite length_take. subst blocks. rewrite length_fmap, length_seq.
    f_equal. f_equal. lia.
Qed.

Lemma master_sheet_lists_every_step_witness :
  length (masterSheetData sampleSequences) = 1 + 2 * length samplePool ∧
  (∀ row, row ∈ masterSheetData sampleSequences → length row = 5) ∧
  ∀ g sequence i step,
    sampleSequences !! g = Some sequence → sequence !! i = Some step →
    masterSheetData sampleSequences !! (1 + (g - 1) * length samplePool + i)
    = Some (masterRow g step).
Proof.
  apply (master_sheet_lists_every_step 0 2 sampleWorld sampleSequences
           sampleEnd).
  exact sample_run.
Defined.
